(** * pacm-v8: a shallow embedding of the C++ shim around the script engine

    The development follows the sources under [src/cpp]:
    - the engine initializer ([shim_v8_initialize]),
    - [util.cc] (string copies, exception capture, [shim_eval]),
    - the context manager ([ensure_property_path], [shim_context_eval],
      [shim_context_set_global_string], [shim_context_register_host_function],
      [shim_context_call_function], [shim_dispose_context]),
    - [script.cc] ([shim_compile_script], [shim_script_run]).

    The engine itself and the host collaborator are not part of the
    repository: they appear as records of oracles ([Engine], [Host]) and as a
    small object heap on which the engine calls made by the shim
    ([Object::Get], [Object::Set], [Object::New]) are interpreted. *)

From Stdlib Require Import ZArith NArith String Ascii List Lia Bool.
From stdpp Require Import base option list gmap strings.

(** ** Engine initializer *)

Module Initializer.

(** What the platform answers during one execution of the setup body. *)
Inductive bringup :=
| BringupOk
| ThrowsBeforePlatform   (* [NewDefaultPlatform] throws *)
| ThrowsAfterPlatform.   (* [InitializePlatform] or [Initialize] throws *)

Record Env := {
  InitializeICU : string → bool;
  InitializeICUDefaultLocation : bool;
  platform_bringup : bringup
}.

Inductive exception :=
| runtime_error (what : string)
| foreign_exception.

(** Process-wide globals. [setup_runs] is a ghost counter: it counts the
    executions of the lambda handed to [std::call_once]. *)
Record Process := {
  g_v8_once : bool;
  g_platform : bool;
  setup_runs : nat
}.

Definition fresh_process : Process :=
  {| g_v8_once := false; g_platform := false; setup_runs := 0 |}.

(** The lambda of [shim_v8_initialize]. *)
Definition setup_body (env : Env) (icu_data_path : option string)
    (p : Process) : Process * option exception :=
  let p := {| g_v8_once := g_v8_once p; g_platform := g_platform p;
              setup_runs := S (setup_runs p) |} in
  let icu_ready :=
    match icu_data_path with
    | Some (String c rest) => InitializeICU env (String c rest)
    | _ => InitializeICUDefaultLocation env
    end in
  if negb icu_ready then (p, Some (runtime_error "ICU initialization failed"))
  else
    match platform_bringup env with
    | ThrowsBeforePlatform => (p, Some foreign_exception)
    | ThrowsAfterPlatform =>
        ({| g_v8_once := g_v8_once p; g_platform := true;
            setup_runs := setup_runs p |}, Some foreign_exception)
    | BringupOk =>
        ({| g_v8_once := g_v8_once p; g_platform := true;
            setup_runs := setup_runs p |}, None)
    end.

(** [std::call_once] on [g_v8_once]: a passive execution returns at once;
    an active execution that throws leaves the flag unset and propagates
    the exception; a returning execution sets the flag. *)
Definition call_once (f : Process → Process * option exception)
    (p : Process) : Process * option exception :=
  if g_v8_once p then (p, None)
  else
    match f p with
    | (p', Some e) => (p', Some e)
    | (p', None) =>
        ({| g_v8_once := true; g_platform := g_platform p';
            setup_runs := setup_runs p' |}, None)
    end.

Definition shim_v8_initialize (env : Env) (icu_data_path : option string)
    (p : Process) : Process * Z :=
  match call_once (setup_body env icu_data_path) p with
  | (p', Some _) => (p', 0%Z)
  | (p', None) => (p', 1%Z)
  end.

(** A sequence of calls, each with the environment it meets. *)
Fixpoint run_calls (calls : list (Env * option string)) (p : Process)
    : Process * list Z :=
  match calls with
  | [] => (p, [])
  | (env, path) :: rest =>
      let '(p1, r) := shim_v8_initialize env path p in
      let '(p2, rs) := run_calls rest p1 in
      (p2, r :: rs)
  end.

(** Number of calls up to and including the first one that returned 1. *)
Fixpoint calls_until_success (rs : list Z) : nat :=
  match rs with
  | [] => 0
  | r :: rest => if (r =? 1)%Z then 1 else S (calls_until_success rest)
  end.

(** An environment in which only [/usr/share/icudtl.dat] can be loaded. *)
Definition env_one_file : Env :=
  {| InitializeICU := fun path => String.eqb path "/usr/share/icudtl.dat";
     InitializeICUDefaultLocation := false;
     platform_bringup := BringupOk |}.

End Initializer.

(** ** The engine as seen from the shim *)

Module Shim.

Definition kMaxCacheableSourceLength : N := 64 * 1024.

(** *** Values, objects and the heap of one isolate *)

Abbreviation loc := nat.

(** A [double] is kept as its IEEE-754 bit pattern: the shim never
    computes with it. *)
Inductive value :=
| VUndefined
| VNull
| VBoolean (b : bool)
| VNumber (bits : Z)
| VString (s : string)
| VObject (l : loc).

(** What a [v8::TryCatch] shows after a failed engine call.
    [ExceptionUtf8] is [*Utf8Value(Exception())] ([None] when the
    conversion yields a null pointer); [MessageUtf8] is [None] when
    [Message()] is an empty handle and [Some None] when its text cannot be
    converted. *)
Record TryCatch := {
  HasCaught : bool;
  ExceptionUtf8 : option string;
  MessageUtf8 : option (option string)
}.

Record NativeCallbackData := { function_id : N }.

Inductive callable :=
| NativeFunction (data : option NativeCallbackData) (name : string)
| ScriptFunction (code : N).

(** An own property: a writable data slot, a data slot that is not
    writable (as [undefined] on a global object, or any slot of a frozen
    object), or an accessor whose getter and setter throw. *)
Inductive slot :=
| Data (v : value)
| ReadOnly (v : value)
| Accessor (thrown : TryCatch).

(** [extensible] is false once script code has frozen or sealed the object
    or prevented its extension. *)
Record object := {
  props : gmap string slot;
  call : option callable;
  extensible : bool
}.

Abbreviation heap := (list object).

Definition UnboundScript := N.

(** Calls that leave the shim, in the order they are made. *)
Inductive event :=
| EvCompile (source : string)
| EvBind (u : UnboundScript)
| EvRun (u : UnboundScript)
| EvCall (f : loc) (args : list value)
| EvSet (target : loc) (key : string) (v : value)
| EvHostInvoke (id : N) (args : list string)
| EvHostDrop (id : N).

Record State := {
  st_heap : heap;
  st_trace : list event
}.

Definition emit (st : State) (e : event) : State :=
  {| st_heap := st_heap st; st_trace := st_trace st ++ [e] |}.

Record RunOutcome := {
  out_heap : heap;
  out_events : list event;
  out_result : value + TryCatch
}.

(** The engine entry points whose behaviour the shim cannot see into. *)
Record Engine := {
  Compile : string → UnboundScript + TryCatch;
  Run : UnboundScript → loc → heap → RunOutcome;
  CallScript : N → loc → list value → heap → RunOutcome;
  Utf8Value : heap → value → option string;
  GetFunction : heap → option TryCatch;
  Catch : value → TryCatch
}.

(** [pacm_v8__host_function_invoke]: status, result pointer, error
    pointer. *)
Record Host := {
  host_function_invoke : N → list string → Z * option string * option string
}.

Definition IsObject (v : value) : bool :=
  match v with VObject _ => true | _ => false end.

Definition IsFunction (h : heap) (v : value) : bool :=
  match v with
  | VObject l =>
      match h !! l with
      | Some o => match call o with Some _ => true | None => false end
      | None => false
      end
  | _ => false
  end.

Definition Object_Get (h : heap) (l : loc) (key : string)
    : value + TryCatch :=
  match h !! l with
  | Some o =>
      match props o !! key with
      | Some (Data v) => inl v
      | Some (ReadOnly v) => inl v
      | Some (Accessor tc) => inr tc
      | None => inl VUndefined
      end
  | None => inl VUndefined
  end.

(** The engine refuses a store to [key] of [l] without raising an
    exception: the slot is not writable, or there is no such slot and the
    object takes no new ones. *)
Definition write_protected (h : heap) (l : loc) (key : string) : bool :=
  match h !! l with
  | Some o =>
      match props o !! key with
      | Some (ReadOnly _) => true
      | Some _ => false
      | None => negb (extensible o)
      end
  | None => false
  end.

(** [v8::Object::Set(ctx, key, value)] stores as a sloppy-mode assignment
    does: the answer is [inr] when the store throws (an empty [Maybe]) and
    [inl] otherwise ([Just(true)]), also when the engine refuses the store
    without an exception, which leaves the heap as it was. *)
Definition Object_Set (h : heap) (l : loc) (key : string) (v : value)
    : heap + TryCatch :=
  match h !! l with
  | Some o =>
      match props o !! key with
      | Some (Accessor tc) => inr tc
      | _ =>
          if write_protected h l key then inl h
          else inl (<[l := {| props := <[key := Data v]> (props o);
                              call := call o;
                              extensible := extensible o |}]> h)
      end
  | None => inl h
  end.

(** What [v8::Object::New] makes. *)
Definition empty_object : object :=
  {| props := ∅; call := None; extensible := true |}.

Definition Object_New (h : heap) : heap * loc :=
  (h ++ [empty_object], length h).

(** *** Wrappers (shim_internal.h) *)

Record IsolateWrapper := {
  isolate : option N;
  allocator : option N
}.

(** [context] is the global object of the wrapped [v8::Context]. *)
Record ContextWrapper := {
  isolate_wrapper : option IsolateWrapper;
  context : loc;
  cache : gmap string UnboundScript;
  native_callbacks : gmap string (option NativeCallbackData)
}.

Definition ctx_isolate (c : ContextWrapper) : option N :=
  match isolate_wrapper c with
  | Some w => isolate w
  | None => None
  end.

Record ScriptWrapper := {
  sw_isolate_wrapper : IsolateWrapper;
  script : option UnboundScript;
  cache_key : string
}.

Definition with_cache (c : ContextWrapper)
    (m : gmap string UnboundScript) : ContextWrapper :=
  {| isolate_wrapper := isolate_wrapper c; context := context c;
     cache := m; native_callbacks := native_callbacks c |}.

Definition with_native_callbacks (c : ContextWrapper)
    (m : gmap string (option NativeCallbackData)) : ContextWrapper :=
  {| isolate_wrapper := isolate_wrapper c; context := context c;
     cache := cache c; native_callbacks := m |}.

(** [unordered_map::emplace] keeps an existing entry. *)
Definition emplace {V} (k : string) (v : V) (m : gmap string V)
    : gmap string V :=
  match m !! k with
  | Some _ => m
  | None => <[k := v]> m
  end.

(** *** util.cc *)

(** A [char**] out-parameter: [None] is a null pointer, [Some c] a cell
    whose content is [c]. A [char*] is [None] when null and [Some s] when
    it points to a buffer that [copy_string] allocated, holding the bytes
    [s] and a terminating NUL, and that the receiver releases with
    [shim_free_string]. [std::malloc] is taken to succeed, so [copy_string]
    never returns null. *)
Abbreviation out_ptr := (option (option string)).

Definition copy_string (value : string) : option string := Some value.

(** What the receiver of a [char*] reads from the buffer: the bytes before
    the first NUL. *)
Fixpoint c_str (buffer : string) : string :=
  match buffer with
  | EmptyString => EmptyString
  | String c rest =>
      if Ascii.eqb c "000"%char then EmptyString else String c (c_str rest)
  end.

Definition value_to_utf8 (E : Engine) (h : heap) (isolate : option N)
    (value : option value) : option string :=
  match isolate, value with
  | Some _, Some v =>
      match Utf8Value E h v with
      | Some utf8 => copy_string utf8
      | None => copy_string ""
      end
  | _, _ => copy_string ""
  end.

Definition clear (p : out_ptr) : out_ptr :=
  match p with
  | Some _ => Some None
  | None => None
  end.

Definition assign_error (error_out : out_ptr) (message : string)
    : out_ptr :=
  match error_out with
  | None => None
  | Some _ => Some (copy_string message)
  end.

Definition capture_exception (isolate : option N) (try_catch : TryCatch)
    : bool * string :=
  match isolate with
  | None => (false, "unknown V8 exception")
  | Some _ =>
      if HasCaught try_catch then
        let message_out :=
          match ExceptionUtf8 try_catch with
          | Some exception => exception
          | None => "unknown V8 exception"
          end in
        let message_out :=
          match MessageUtf8 try_catch with
          | Some (Some detailed) =>
              String.append message_out
            (String.append (String "010"%char "") detailed)
          | _ => message_out
          end in
        (true, message_out)
      else (false, "V8 execution failed")
  end.

Definition ensure_isolate (handle : option IsolateWrapper)
    : IsolateWrapper + string :=
  match handle with
  | Some out =>
      match isolate out with
      | Some _ => inl out
      | None => inr "invalid isolate handle"
      end
  | None => inr "invalid isolate handle"
  end.

Definition ensure_context (handle : option ContextWrapper)
    : ContextWrapper + string :=
  match handle with
  | Some out =>
      match ctx_isolate out with
      | Some _ => inl out
      | None => inr "invalid V8 context handle"
      end
  | None => inr "invalid V8 context handle"
  end.

Definition ensure_script (handle : option ScriptWrapper)
    : ScriptWrapper + string :=
  match handle with
  | Some out =>
      match script out with
      | Some _ => inl out
      | None => inr "invalid V8 script handle"
      end
  | None => inr "invalid V8 script handle"
  end.

(** *** Context manager *)

(** What a fallible entry point leaves behind: the [int] it returns, the
    isolate state, the wrapper behind the context handle and the two
    out-parameters. *)
Record Ret := {
  ret_status : Z;
  ret_state : State;
  ret_context : option ContextWrapper;
  ret_result : out_ptr;
  ret_error : out_ptr
}.

(** The segments that [path.find('.', start)] and [path.substr] cut out of
    [path], from left to right. A path that is empty or ends in a dot has an
    empty last segment; the loop of [ensure_property_path] then runs off its
    end (or is never entered). *)
Fixpoint split_dots (path : string) : list string :=
  match path with
  | EmptyString => [EmptyString]
  | String c rest =>
      if Ascii.eqb c "."%char then EmptyString :: split_dots rest
      else
        match split_dots rest with
        | segment :: segments => String c segment :: segments
        | [] => [String c EmptyString]
        end
  end.

Definition segment_empty (segment : string) : bool :=
  match segment with
  | EmptyString => true
  | String _ _ => false
  end.

Inductive path_result :=
| PathOk (target_out : loc) (property_out : string)
| PathError (error_out : string).

(** The [while] loop of [ensure_property_path], one iteration per segment:
    a segment followed by a dot is an intermediate one, the segment with no
    dot after it names the property. *)
Fixpoint walk_segments (segments : list string) (current : loc)
    (st : State) : State * path_result :=
  match segments with
  | [] => (st, PathError "property name was empty")
  | segment :: rest =>
      match rest with
      | [] =>
          if segment_empty segment
          then (st, PathError "property name was empty")
          else (st, PathOk current segment)
      | _ :: _ =>
          if segment_empty segment
          then (st, PathError "property path contained an empty segment")
          else
            let create :=
              let '(h1, fresh) := Object_New (st_heap st) in
              let st1 := {| st_heap := h1;
                            st_trace := st_trace st
                              ++ [EvSet current segment (VObject fresh)] |} in
              match Object_Set h1 current segment (VObject fresh) with
              | inr _ =>
                  (st1, PathError
                     "failed to assign intermediate object on property path")
              | inl h2 =>
                  walk_segments rest fresh
                    {| st_heap := h2; st_trace := st_trace st1 |}
              end in
            match Object_Get (st_heap st) current segment with
            | inr _ => create
            | inl VUndefined => create
            | inl VNull => create
            | inl (VObject next) => walk_segments rest next st
            | inl _ =>
                (st, PathError
                   "property path conflicts with existing non-object value")
            end
      end
  end.

Definition ensure_property_path (global : loc) (path : string) (st : State)
    : State * path_result :=
  walk_segments (split_dots path) global st.


(** The same function with the loop as the source writes it, on the index
    [start] into [path]: [String.index start "." path] is
    [path.find('.', start)] ([None] for [npos]) and [String.substring] is
    [path.substr]. The fuel bounds the number of iterations;
    [ensure_property_path_by_index_eq] shows that the length of the path is
    enough and that the result is that of [ensure_property_path]. *)
Fixpoint ensure_property_path_loop (fuel : nat) (path : string) (start : nat)
    (current : loc) (st : State) : option (State * path_result) :=
  match fuel with
  | 0 => None
  | S fuel =>
      if start <? String.length path then
        let dot := String.index start "." path in
        let segment :=
          match dot with
          | None => String.substring start (String.length path - start) path
          | Some dot => String.substring start (dot - start) path
          end in
        if segment_empty segment
        then Some (st, PathError "property path contained an empty segment")
        else
          match dot with
          | None => Some (st, PathOk current segment)
          | Some dot =>
              let create :=
                let '(h1, fresh) := Object_New (st_heap st) in
                let st1 := {| st_heap := h1;
                              st_trace := st_trace st
                                ++ [EvSet current segment (VObject fresh)] |} in
                match Object_Set h1 current segment (VObject fresh) with
                | inr _ =>
                    Some (st1, PathError
                       "failed to assign intermediate object on property path")
                | inl h2 =>
                    ensure_property_path_loop fuel path (dot + 1) fresh
                      {| st_heap := h2; st_trace := st_trace st1 |}
                end in
              match Object_Get (st_heap st) current segment with
              | inr _ => create
              | inl VUndefined => create
              | inl VNull => create
              | inl (VObject next) =>
                  ensure_property_path_loop fuel path (dot + 1) next st
              | inl _ =>
                  Some (st, PathError
                     "property path conflicts with existing non-object value")
              end
          end
      else Some (st, PathError "property name was empty")
  end.

Definition ensure_property_path_by_index (global : loc) (path : string)
    (st : State) : option (State * path_result) :=
  if segment_empty path then Some (st, PathError "property name was empty")
  else ensure_property_path_loop (S (String.length path)) path 0 global st.

(** [path] without its first [n] characters. *)
Fixpoint string_drop (n : nat) (s : string) : string :=
  match n, s with
  | S n, String _ rest => string_drop n rest
  | _, _ => s
  end.

(** The host is told to drop every id still in the registry, in the
    iteration order of the map. *)
Definition dispose_native_callbacks (context : ContextWrapper) (st : State)
    : State * ContextWrapper :=
  (foldl
     (fun st entry =>
        match entry.2 with
        | Some data => emit st (EvHostDrop (function_id data))
        | None => st
        end)
     st (map_to_list (native_callbacks context)),
   with_native_callbacks context ∅).

Definition native_function_trampoline (E : Engine) (H : Host) (h : heap)
    (isolate : option N) (data : option NativeCallbackData)
    (info : list value) : list event * (value + value) :=
  match data with
  | None => ([], inr (VString "host function metadata missing"))
  | Some data =>
      let arguments :=
        map (fun v => default "" (value_to_utf8 E h isolate (Some v))) info in
      let '(status, result_ptr, error_ptr) :=
        host_function_invoke H (function_id data) arguments in
      ([EvHostInvoke (function_id data) arguments],
       if (status =? 0)%Z then
         inr (VString (default "host function invocation failed" error_ptr))
       else
         match result_ptr with
         | Some result => inl (VString result)
         | None => inl VUndefined
         end)
  end.

(** [v8::Function::Call]: a function made by
    [shim_context_register_host_function] enters the trampoline, any other
    function is the engine's business. *)
Definition Function_Call (E : Engine) (H : Host) (isolate : option N)
    (f : loc) (receiver : loc) (args : list value) (st : State)
    : State * (value + TryCatch) :=
  let st := emit st (EvCall f args) in
  match h_call ← st_heap st !! f; call h_call with
  | Some (NativeFunction data _) =>
      let '(events, r) :=
        native_function_trampoline E H (st_heap st) isolate data args in
      ({| st_heap := st_heap st; st_trace := st_trace st ++ events |},
       match r with
       | inl v => inl v
       | inr thrown => inr (Catch E thrown)
       end)
  | Some (ScriptFunction code) =>
      let o := CallScript E code receiver args (st_heap st) in
      ({| st_heap := out_heap o; st_trace := st_trace st ++ out_events o |},
       out_result o)
  | None => (st, inr (Catch E (VString "not a function")))
  end.

(** [script->Run(ctx)] for a script bound to the context whose global object
    is [global]. *)
Definition Script_Run (E : Engine) (u : UnboundScript) (global : loc)
    (st : State) : State * (value + TryCatch) :=
  let o := Run E u global (st_heap st) in
  ({| st_heap := out_heap o;
      st_trace := st_trace st ++ [EvRun u] ++ out_events o |},
   out_result o).

(** The global object of the new context is taken without the properties
    that the engine builds into it. *)
Definition shim_create_context (handle : option IsolateWrapper) (st : State)
    : State * option ContextWrapper :=
  match handle with
  | Some isolate_wrapper =>
      match isolate isolate_wrapper with
      | Some _ =>
          let '(h, global) := Object_New (st_heap st) in
          ({| st_heap := h; st_trace := st_trace st |},
           Some {| isolate_wrapper := Some isolate_wrapper;
                   context := global;
                   cache := ∅;
                   native_callbacks := ∅ |})
      | None => (st, None)
      end
  | None => (st, None)
  end.

Definition shim_dispose_context (handle : option ContextWrapper) (st : State)
    : State :=
  match handle with
  | None => st
  | Some context =>
      let context := with_cache context ∅ in
      (dispose_native_callbacks context st).1
  end.

Definition shim_context_eval (E : Engine) (handle : option ContextWrapper)
    (source : option string) (result_out error_out : out_ptr) (st : State)
    : Ret :=
  let result_out := clear result_out in
  let error_out := clear error_out in
  match ensure_context handle with
  | inr error =>
      {| ret_status := 0; ret_state := st; ret_context := handle;
         ret_result := result_out;
         ret_error := assign_error error_out error |}
  | inl context =>
      match source with
      | None =>
          {| ret_status := 0; ret_state := st; ret_context := handle;
             ret_result := result_out;
             ret_error := assign_error error_out "source was null" |}
      | Some source =>
          let isolate := ctx_isolate context in
          let compiled :=
            match cache context !! source with
            | Some unbound =>
                (emit st (EvBind unbound), context, inl unbound)
            | None =>
                let st := emit st (EvCompile source) in
                match Compile E source with
                | inr try_catch => (st, context, inr try_catch)
                | inl unbound =>
                    let len := N.of_nat (String.length source) in
                    if (len <=? kMaxCacheableSourceLength)%N
                    then (st,
                          with_cache context
                            (emplace source unbound (cache context)),
                          inl unbound)
                    else (st, context, inl unbound)
                end
            end in
          match compiled with
          | (st, context, inr try_catch) =>
              let message := (capture_exception isolate try_catch).2 in
              {| ret_status := 0; ret_state := st;
                 ret_context := Some context;
                 ret_result := result_out;
                 ret_error := assign_error error_out message |}
          | (st, context, inl unbound) =>
              match Script_Run E unbound (Shim.context context) st with
              | (st, inr try_catch) =>
                  let message := (capture_exception isolate try_catch).2 in
                  {| ret_status := 0; ret_state := st;
                     ret_context := Some context;
                     ret_result := result_out;
                     ret_error := assign_error error_out message |}
              | (st, inl result) =>
                  {| ret_status := 1; ret_state := st;
                     ret_context := Some context;
                     ret_result :=
                       match result_out with
                       | Some _ =>
                           Some (value_to_utf8 E (st_heap st) isolate
                                   (Some result))
                       | None => None
                       end;
                     ret_error := error_out |}
              end
          end
      end
  end.

(** [shim_context_set_global_string] and [shim_context_set_global_number]
    differ only in the value they build. *)
Definition set_global_value (handle : option ContextWrapper)
    (name : option string) (js_value : value) (error_out : out_ptr)
    (st : State) : Ret :=
  let error_out := clear error_out in
  match ensure_context handle with
  | inr error =>
      {| ret_status := 0; ret_state := st; ret_context := handle;
         ret_result := None; ret_error := assign_error error_out error |}
  | inl context =>
      match name with
      | None =>
          {| ret_status := 0; ret_state := st; ret_context := handle;
             ret_result := None;
             ret_error := assign_error error_out "property name was null" |}
      | Some name =>
          let isolate := ctx_isolate context in
          match ensure_property_path (Shim.context context) name st with
          | (st, PathError error) =>
              {| ret_status := 0; ret_state := st; ret_context := handle;
                 ret_result := None;
                 ret_error := assign_error error_out error |}
          | (st, PathOk target key) =>
              let st := emit st (EvSet target key js_value) in
              match Object_Set (st_heap st) target key js_value with
              | inr try_catch =>
                  let message := (capture_exception isolate try_catch).2 in
                  {| ret_status := 0; ret_state := st; ret_context := handle;
                     ret_result := None;
                     ret_error := assign_error error_out message |}
              | inl h =>
                  {| ret_status := 1;
                     ret_state := {| st_heap := h; st_trace := st_trace st |};
                     ret_context := handle;
                     ret_result := None; ret_error := error_out |}
              end
          end
      end
  end.

Definition shim_context_set_global_string (handle : option ContextWrapper)
    (name : option string) (value : option string) (error_out : out_ptr)
    (st : State) : Ret :=
  set_global_value handle name (VString (default "" value)) error_out st.

Definition shim_context_set_global_number (handle : option ContextWrapper)
    (name : option string) (value : Z) (error_out : out_ptr)
    (st : State) : Ret :=
  set_global_value handle name (VNumber value) error_out st.

Definition shim_context_register_host_function (E : Engine)
    (handle : option ContextWrapper) (name : option string)
    (function_id : N) (error_out : out_ptr) (st : State) : Ret :=
  let error_out := clear error_out in
  match ensure_context handle with
  | inr error =>
      {| ret_status := 0; ret_state := st; ret_context := handle;
         ret_result := None; ret_error := assign_error error_out error |}
  | inl context =>
      match name with
      | None =>
          {| ret_status := 0; ret_state := st; ret_context := handle;
             ret_result := None;
             ret_error := assign_error error_out "function name was null" |}
      | Some name =>
          let isolate := ctx_isolate context in
          match ensure_property_path (Shim.context context) name st with
          | (st, PathError error) =>
              {| ret_status := 0; ret_state := st; ret_context := handle;
                 ret_result := None;
                 ret_error := assign_error error_out error |}
          | (st, PathOk target key) =>
              let data := {| Shim.function_id := function_id |} in
              match GetFunction E (st_heap st) with
              | Some try_catch =>
                  let message := (capture_exception isolate try_catch).2 in
                  {| ret_status := 0; ret_state := st; ret_context := handle;
                     ret_result := None;
                     ret_error := assign_error error_out message |}
              | None =>
                  (* tpl->GetFunction(ctx), then function->SetName(key) *)
                  let function := length (st_heap st) in
                  let st :=
                    {| st_heap := st_heap st ++
                         [{| props := ∅;
                             call := Some (NativeFunction (Some data) key);
                             extensible := true |}];
                       st_trace := st_trace st |} in
                  let st := emit st (EvSet target key (VObject function)) in
                  match Object_Set (st_heap st) target key (VObject function)
                  with
                  | inr try_catch =>
                      let message :=
                        (capture_exception isolate try_catch).2 in
                      {| ret_status := 0; ret_state := st;
                         ret_context := handle; ret_result := None;
                         ret_error := assign_error error_out message |}
                  | inl h =>
                      let st := {| st_heap := h; st_trace := st_trace st |} in
                      let path_key := name in
                      let '(st, callbacks) :=
                        match native_callbacks context !! path_key with
                        | Some existing =>
                            (match existing with
                             | Some old =>
                                 emit st (EvHostDrop (Shim.function_id old))
                             | None => st
                             end,
                             delete path_key (native_callbacks context))
                        | None => (st, native_callbacks context)
                        end in
                      {| ret_status := 1; ret_state := st;
                         ret_context :=
                           Some (with_native_callbacks context
                                   (emplace path_key (Some data) callbacks));
                         ret_result := None; ret_error := error_out |}
                  end
              end
          end
      end
  end.

Definition shim_context_call_function (E : Engine) (H : Host)
    (handle : option ContextWrapper) (fn_name : option string)
    (args : option (list (option string))) (arg_count : nat)
    (result_out error_out : out_ptr) (st : State) : Ret :=
  let result_out := clear result_out in
  let error_out := clear error_out in
  match ensure_context handle with
  | inr error =>
      {| ret_status := 0; ret_state := st; ret_context := handle;
         ret_result := result_out;
         ret_error := assign_error error_out error |}
  | inl context =>
      match fn_name with
      | None =>
          {| ret_status := 0; ret_state := st; ret_context := handle;
             ret_result := result_out;
             ret_error := assign_error error_out "function name was null" |}
      | Some fn_name =>
          let isolate := ctx_isolate context in
          let global := Shim.context context in
          let not_found :=
            {| ret_status := 0; ret_state := st; ret_context := handle;
               ret_result := result_out;
               ret_error :=
                 assign_error error_out "global function not found" |} in
          match Object_Get (st_heap st) global fn_name with
          | inr _ => not_found
          | inl maybe_function =>
              match maybe_function with
              | VObject function =>
                  if IsFunction (st_heap st) maybe_function then
                    let js_args :=
                      map (fun i =>
                             match arg ← args; arg !! i with
                             | Some (Some arg) => VString arg
                             | _ => VUndefined
                             end)
                          (seq 0 arg_count) in
                    match Function_Call E H isolate function global js_args st
                    with
                    | (st, inr try_catch) =>
                        let message :=
                          (capture_exception isolate try_catch).2 in
                        {| ret_status := 0; ret_state := st;
                           ret_context := handle; ret_result := result_out;
                           ret_error := assign_error error_out message |}
                    | (st, inl result) =>
                        {| ret_status := 1; ret_state := st;
                           ret_context := handle;
                           ret_result :=
                             match result_out with
                             | Some _ =>
                                 Some (value_to_utf8 E (st_heap st) isolate
                                         (Some result))
                             | None => None
                             end;
                           ret_error := error_out |}
                    end
                  else not_found
              | _ => not_found
              end
          end
      end
  end.

(** *** script.cc *)

Record CompileRet := {
  cr_handle : option ScriptWrapper;
  cr_state : State;
  cr_error : out_ptr
}.

Definition shim_compile_script (E : Engine) (handle : option IsolateWrapper)
    (source : option string) (error_out : out_ptr) (st : State)
    : CompileRet :=
  let error_out := clear error_out in
  match ensure_isolate handle with
  | inr error =>
      {| cr_handle := None; cr_state := st;
         cr_error := assign_error error_out error |}
  | inl isolate_wrapper =>
      match source with
      | None =>
          {| cr_handle := None; cr_state := st;
             cr_error := assign_error error_out "source was null" |}
      | Some source =>
          let st := emit st (EvCompile source) in
          match Compile E source with
          | inr try_catch =>
              let message :=
                (capture_exception (isolate isolate_wrapper) try_catch).2 in
              {| cr_handle := None; cr_state := st;
                 cr_error := assign_error error_out message |}
          | inl compiled =>
              {| cr_handle :=
                   Some {| sw_isolate_wrapper := isolate_wrapper;
                           script := Some compiled;
                           cache_key := source |};
                 cr_state := st;
                 cr_error := error_out |}
          end
      end
  end.

Definition shim_script_run (E : Engine)
    (script_handle : option ScriptWrapper)
    (context_handle : option ContextWrapper)
    (result_out error_out : out_ptr) (st : State) : Ret :=
  let result_out := clear result_out in
  let error_out := clear error_out in
  let failed st message :=
    {| ret_status := 0; ret_state := st; ret_context := context_handle;
       ret_result := result_out;
       ret_error := assign_error error_out message |} in
  match ensure_script script_handle with
  | inr error => failed st error
  | inl script_wrapper =>
      match ensure_context context_handle with
      | inr error => failed st error
      | inl context_wrapper =>
          let isolate := ctx_isolate context_wrapper in
          if bool_decide
               (isolate = None ∨
                isolate ≠ Shim.isolate (sw_isolate_wrapper script_wrapper))
          then failed st "script and context belong to different isolates"
          else
            match script script_wrapper with
            | None => (* excluded by ensure_script *)
                failed st "invalid V8 script handle"
            | Some unbound =>
                let st := emit st (EvBind unbound) in
                match Script_Run E unbound (context context_wrapper) st with
                | (st, inr try_catch) =>
                    failed st (capture_exception isolate try_catch).2
                | (st, inl result) =>
                    {| ret_status := 1; ret_state := st;
                       ret_context :=
                         if segment_empty (cache_key script_wrapper)
                         then context_handle
                         else
                           Some (with_cache context_wrapper
                                   (<[cache_key script_wrapper := unbound]>
                                      (cache context_wrapper)));
                       ret_result :=
                         match result_out with
                         | Some _ =>
                             Some (value_to_utf8 E (st_heap st) isolate
                                     (Some result))
                         | None => None
                         end;
                       ret_error := error_out |}
                end
            end
    end
  end.

(** *** The legacy entry point (util.cc) *)

Definition shim_eval (E : Engine) (handle : option ContextWrapper)
    (source : option string) (st : State)
    : State * option ContextWrapper * option string :=
  let r := shim_context_eval E handle source (Some None) (Some None) st in
  (ret_state r, ret_context r,
   if (ret_status r =? 0)%Z
   then default None (ret_error r)
   else default None (ret_result r)).

(** The exception pending when [shim_context_eval] has failed on a valid
    context: the compiler's on a cache miss, otherwise that of running the
    unit. *)
Definition eval_pending (E : Engine) (context : ContextWrapper)
    (source : string) (st : State) : option TryCatch :=
  let run_pending unbound :=
    match out_result (Run E unbound (Shim.context context) (st_heap st)) with
    | inr try_catch => Some try_catch
    | inl _ => None
    end in
  match cache context !! source with
  | Some unbound => run_pending unbound
  | None =>
      match Compile E source with
      | inr try_catch => Some try_catch
      | inl unbound => run_pending unbound
      end
  end.

(** *** Out-parameters in the caller's memory *)

(** The caller's [char*] variables, by address. *)
Abbreviation Memory := (gmap N (option string)).

Definition deref (m : Memory) (p : option N) : out_ptr :=
  match p with
  | Some a => Some (default None (m !! a))
  | None => None
  end.

Definition store (p : option N) (cell : out_ptr) (m : Memory) : Memory :=
  match p, cell with
  | Some a, Some content => <[a := content]> m
  | _, _ => m
  end.

(** An entry point [f] called with the pointers [result_out] and
    [error_out] into [m]. The entry points null the cells they are given
    and then write at most one of them before they return: the error cell
    where they return 0, the result cell where they return 1. The cell
    written last is stored last, so two pointers to one variable leave in
    it what the entry point wrote last. *)
Definition through_pointers (f : out_ptr → out_ptr → Ret)
    (result_out error_out : option N) (m : Memory) : Ret * Memory :=
  let r := f (deref m result_out) (deref m error_out) in
  (r,
   if (ret_status r =? 0)%Z
   then store error_out (ret_error r) (store result_out (ret_result r) m)
   else store result_out (ret_result r) (store error_out (ret_error r) m)).

(** *** Script code calling into the namespace *)

(** Modelled engine behaviour: the value of the member expression
    [a.b.c] over own data properties. Reading a property of [undefined] or
    [null] throws, as does a throwing accessor; the other primitives have no
    own properties. *)
Fixpoint member_chain (h : heap) (base : value) (segments : list string)
    : option value :=
  match segments with
  | [] => Some base
  | segment :: rest =>
      match base with
      | VObject l =>
          match Object_Get h l segment with
          | inl v => member_chain h v rest
          | inr _ => None
          end
      | VUndefined | VNull => None
      | _ => member_chain h VUndefined rest
      end
  end.


(** *** Well-formed heaps *)

Definition slot_closed (bound : nat) (s : slot) : bool :=
  match s with
  | Data (VObject x) | ReadOnly (VObject x) => x <? bound
  | _ => true
  end.

(** No property refers to an object that is not in the heap. *)
Definition heap_closed (h : heap) : bool :=
  forallb
    (fun o =>
       forallb (fun entry => slot_closed (length h) entry.2)
         (map_to_list (props o)))
    h.

Definition closed (h : heap) : Prop :=
  ∀ l key x, Object_Get h l key = inl (VObject x) → x < length h.

(** [h'] has every object of [h] and every object-valued property of
    [h]. *)
Definition extends (h h' : heap) : Prop :=
  length h ≤ length h' ∧
  ∀ l key x, Object_Get h l key = inl (VObject x) →
             Object_Get h' l key = inl (VObject x).

(** Following the properties [pre] from [current] leads through objects
    to [target]. *)
Fixpoint chain (h : heap) (current : loc) (pre : list string) (target : loc)
    : Prop :=
  match pre with
  | [] => current = target
  | segment :: pre' =>
      ∃ next, Object_Get h current segment = inl (VObject next) ∧
              chain h next pre' target
  end.

(** *** A small engine and host to run the shim on *)

Definition syntax_error : TryCatch :=
  {| HasCaught := true;
     ExceptionUtf8 := Some "SyntaxError: Unexpected end of input";
     MessageUtf8 :=
       Some (Some "Uncaught SyntaxError: Unexpected end of input") |}.

(** What a [TryCatch] with message capture on (the default, which the
    shim never changes) shows for a thrown value whose string form is
    [text]. *)
Definition Catch_uncaught (text : string) : TryCatch :=
  {| HasCaught := true;
     ExceptionUtf8 := Some text;
     MessageUtf8 := Some (Some (String.append "Uncaught " text)) |}.

Fixpoint skip_spaces (s : string) : string :=
  match s with
  | String c rest => if Ascii.eqb c " "%char then skip_spaces rest else s
  | EmptyString => s
  end.

(** The string form of the values the small engine below produces; of the
    numbers only 0, 1 and 42 occur. *)
Definition toy_utf8 (v : value) : string :=
  match v with
  | VUndefined => "undefined"
  | VNull => "null"
  | VBoolean true => "true"
  | VBoolean false => "false"
  | VNumber bits =>
      if (bits =? 0)%Z then "0"
      else if (bits =? 4607182418800017408)%Z then "1"
      else if (bits =? 4631107791820423168)%Z then "42"
      else "NaN"
  | VString s => s
  | VObject _ => "[object Object]"
  end.

(** A small engine. It knows five programs, each preceded by any number
    of spaces, and answers for them what V8 answers: the empty program
    evaluates to [undefined], a quoted literal to its text and [1] to the
    number one; [throw ''] throws the empty string and [throw '\0'] the
    string that consists of one NUL. Every other text is taken for the
    unfinished ["("], which does not parse. *)
Definition toy_engine : Engine :=
  {| Compile := fun source =>
       let program := skip_spaces source in
       if String.eqb program "" then inl 0%N
       else if String.eqb program "'invalid V8 context handle'" then inl 1%N
       else if String.eqb program "throw ''" then inl 2%N
       else if String.eqb program "1" then inl 3%N
       else if String.eqb program "throw '\0'" then inl 4%N
       else inr syntax_error;
     Run := fun u global h =>
       {| out_heap := h; out_events := [];
          out_result :=
            if (u =? 1)%N then inl (VString "invalid V8 context handle")
            else if (u =? 2)%N then inr (Catch_uncaught "")
            else if (u =? 3)%N then inl (VNumber 4607182418800017408)
            else if (u =? 4)%N
            then inr (Catch_uncaught (String "000"%char ""))
            else inl VUndefined |};
     CallScript := fun code receiver args h =>
       {| out_heap := h; out_events := []; out_result := inl VUndefined |};
     Utf8Value := fun h v => Some (toy_utf8 v);
     GetFunction := fun _ => None;
     Catch := fun v => Catch_uncaught (toy_utf8 v) |}.

(** A host whose every function echoes its first argument. *)
Definition toy_host : Host :=
  {| host_function_invoke := fun id args => (1%Z, head args, None) |}.

Definition toy_isolate : IsolateWrapper :=
  {| isolate := Some 1%N; allocator := Some 1%N |}.

Definition other_isolate : IsolateWrapper :=
  {| isolate := Some 2%N; allocator := Some 2%N |}.

Definition empty_state : State := {| st_heap := []; st_trace := [] |}.

(** The state and context right after [shim_create_context]. *)
Definition toy_state : State :=
  (shim_create_context (Some toy_isolate) empty_state).1.

Definition toy_context : ContextWrapper :=
  {| isolate_wrapper := Some toy_isolate; context := 0;
     cache := ∅; native_callbacks := ∅ |}.

(** The context and state after registering id 7 at [host.echo]. *)
Definition echo_state : State :=
  ret_state (shim_context_register_host_function toy_engine
               (Some toy_context) (Some "host.echo") 7 (Some None)
               toy_state).

Definition echo_context : ContextWrapper :=
  default toy_context
    (ret_context (shim_context_register_host_function toy_engine
                    (Some toy_context) (Some "host.echo") 7 (Some None)
                    toy_state)).

Definition is_compile (e : event) : bool :=
  match e with EvCompile _ => true | _ => false end.

(** The two cells of a call, by content, when they are two variables. On
    failure the result cell is null and the error cell, when the caller
    supplied one, holds a message; on success the error cell is null and the
    result cell, when supplied, holds a string. What the cells held before
    the call plays no part. *)
Definition one_side_populated (result_in error_in : out_ptr) (r : Ret)
    : Prop :=
  (ret_status r = 0%Z ∧
   ret_result r = match result_in with
                  | Some _ => Some None
                  | None => None
                  end ∧
   ∃ message : string,
     ret_error r = match error_in with
                   | Some _ => Some (Some message)
                   | None => None
                   end) ∨
  (ret_status r = 1%Z ∧
   ret_error r = match error_in with
                 | Some _ => Some None
                 | None => None
                 end ∧
   ∃ text : string,
     ret_result r = match result_in with
                    | Some _ => Some (Some text)
                    | None => None
                    end).

(** The variable behind [p], if [p] is not null, holds [content]. *)
Definition points_to (m : Memory) (p : option N) (content : option string)
    : Prop :=
  ∀ a, p = Some a → m !! a = Some content.

(** The same in the caller's memory [m] after the call. *)
Definition one_side_in_memory (result_out error_out : option N)
    (status : Z) (m : Memory) : Prop :=
  (status = 0%Z ∧ points_to m result_out None ∧
   ∃ message : string, points_to m error_out (Some message)) ∨
  (status = 1%Z ∧ points_to m error_out None ∧
   ∃ text : string, points_to m result_out (Some text)).

(** The key of every cache entry is short enough to have been cached by
    [shim_context_eval]. *)
Definition cache_bounded (c : ContextWrapper) : Prop :=
  ∀ key u, cache c !! key = Some u →
    (N.of_nat (String.length key) ≤ kMaxCacheableSourceLength)%N.

(** A source one byte longer than [kMaxCacheableSourceLength]: 65536
    spaces and the literal [1]. *)
Definition long_source : string :=
  string_of_list_ascii (repeat " "%char (N.to_nat 65536) ++ ["1"%char]).

Definition newline : string := String "010"%char EmptyString.

Fixpoint count_newlines (s : string) : nat :=
  match s with
  | EmptyString => 0
  | String c rest =>
      (if Ascii.eqb c "010"%char then 1 else 0) + count_newlines rest
  end.

Definition line_count (s : string) : nat := S (count_newlines s).

(** The registry as a map from path to the id registered there. *)
Definition registered (c : ContextWrapper) : gmap string N :=
  omap (fun entry : option NativeCallbackData => function_id <$> entry)
    (native_callbacks c).

Definition host_drops (trace : list event) : list N :=
  omap (fun e => match e with EvHostDrop id => Some id | _ => None end) trace.


(** *** Isolate manager *)

(** The engine objects that are alive: isolates and array-buffer
    allocators, by address. *)
Record Resources := {
  live_isolates : gset N;
  live_allocators : gset N
}.

(** [shim_create_isolate]. [new_allocator] is the address that
    [NewDefaultAllocator] returns and [new_isolate] what [Isolate::New]
    returns ([None] for a null pointer). *)
Definition shim_create_isolate (new_allocator : N) (new_isolate : option N)
    (res : Resources) : Resources * option IsolateWrapper :=
  let res := {| live_isolates := live_isolates res;
                live_allocators := {[new_allocator]} ∪ live_allocators res |} in
  match new_isolate with
  | None =>
      ({| live_isolates := live_isolates res;
          live_allocators := live_allocators res ∖ {[new_allocator]} |},
       None)
  | Some i =>
      ({| live_isolates := {[i]} ∪ live_isolates res;
          live_allocators := live_allocators res |},
       Some {| isolate := Some i; allocator := Some new_allocator |})
  end.

(** [shim_dispose_isolate]; deleting a null allocator does nothing. *)
Definition shim_dispose_isolate (handle : option IsolateWrapper)
    (res : Resources) : Resources :=
  match handle with
  | None => res
  | Some wrapper =>
      let res :=
        match isolate wrapper with
        | Some i =>
            {| live_isolates := live_isolates res ∖ {[i]};
               live_allocators := live_allocators res |}
        | None => res
        end in
      match allocator wrapper with
      | Some a =>
          {| live_isolates := live_isolates res;
             live_allocators := live_allocators res ∖ {[a]} |}
      | None => res
      end
  end.

(** *** Sequences of registrations *)


(** The arguments [shim_context_call_function] builds from the caller's
    array. *)
Definition call_arguments (args : option (list (option string)))
    (arg_count : nat) : list value :=
  map (fun i =>
         match arg ← args; arg !! i with
         | Some (Some arg) => VString arg
         | _ => VUndefined
         end)
      (seq 0 arg_count).

Definition is_object_set (e : event) : bool :=
  match e with
  | EvSet _ _ (VObject _) => true
  | _ => false
  end.

End Shim.

(** ** Theorems *)

Module InitializerFacts.
Import Initializer.

Lemma initialize_passive env path p :
  g_v8_once p = true → shim_v8_initialize env path p = (p, 1%Z).
Proof.
  intros Hflag. unfold shim_v8_initialize, call_once. by rewrite Hflag.
Qed.

Lemma initialize_active env path p p' r :
  g_v8_once p = false →
  shim_v8_initialize env path p = (p', r) →
  setup_runs p' = S (setup_runs p) ∧
  ((r = 1%Z ∧ g_v8_once p' = true) ∨ (r = 0%Z ∧ g_v8_once p' = false)).
Proof.
  intros Hflag. unfold shim_v8_initialize, call_once, setup_body.
  rewrite Hflag.
  destruct (negb _); [intros [= <- <-]; simpl; auto|].
  destruct (platform_bringup env); intros [= <- <-]; simpl; auto.
Qed.

Lemma run_calls_ready calls p :
  g_v8_once p = true →
  run_calls calls p = (p, map (fun _ => 1%Z) calls).
Proof.
  intros Hflag. induction calls as [|[env path] rest IH]; [done|].
  simpl. rewrite (initialize_passive _ _ _ Hflag), IH. done.
Qed.

Lemma run_calls_count calls : ∀ p,
  g_v8_once p = false →
  setup_runs (run_calls calls p).1
    = setup_runs p + calls_until_success (run_calls calls p).2.
Proof.
  induction calls as [|[env path] rest IH]; intros p Hflag; simpl; [lia|].
  destruct (shim_v8_initialize env path p) as [p1 r] eqn:Hcall.
  destruct (initialize_active _ _ _ _ _ Hflag Hcall)
    as [Hruns [[-> Hset]|[-> Hunset]]].
  - rewrite (run_calls_ready _ _ Hset). simpl. lia.
  - specialize (IH p1 Hunset).
    destruct (run_calls rest p1) as [p2 rs]. simpl in *. lia.
Qed.

(** C1, as stated, fails: a first call that meets a missing data file
    returns 0, and the next call executes the setup body again (and here
    succeeds), so the body ran twice and the second call did not observe
    the first outcome. *)
Lemma initialize_retries_after_failure :
  let calls := [(env_one_file, Some "/missing.dat");
                (env_one_file, Some "/usr/share/icudtl.dat")] in
  (run_calls calls fresh_process).2 = [0%Z; 1%Z] ∧
  setup_runs (run_calls calls fresh_process).1 = 2 ∧
  ¬ (setup_runs (run_calls calls fresh_process).1 ≤ 1)%nat.
Proof. vm_compute. repeat split; try done. lia. Qed.

(** C1 (amended): over every sequence of calls on a fresh process the setup
    body is executed once per call up to and including the first call that
    returns success, and never afterwards; every call after a successful
    one returns success without touching the process state; a call that
    returns failure leaves the guard unset, so the next call executes the
    setup body again. *)
Theorem initialize_once_after_success (calls : list (Env * option string)) :
  setup_runs (run_calls calls fresh_process).1
    = calls_until_success (run_calls calls fresh_process).2 ∧
  (∀ env path p, g_v8_once p = true →
     shim_v8_initialize env path p = (p, 1%Z)) ∧
  (∀ env path p, g_v8_once p = false →
     (shim_v8_initialize env path p).2 = 0%Z →
     g_v8_once (shim_v8_initialize env path p).1 = false ∧
     ∀ env' path',
       setup_runs (shim_v8_initialize env' path'
                     (shim_v8_initialize env path p).1).1
         = S (S (setup_runs p))).
Proof.
  split; [|split].
  - by rewrite run_calls_count.
  - intros. by apply initialize_passive.
  - intros env path p Hflag Hres.
    destruct (shim_v8_initialize env path p) as [p1 r] eqn:Hcall.
    simpl in *. subst r.
    destruct (initialize_active _ _ _ _ _ Hflag Hcall)
      as [Hruns [[? _]|[_ Hunset]]]; [done|].
    split; [done|]. intros env' path'.
    destruct (shim_v8_initialize env' path' p1) as [p2 r2] eqn:Hcall2.
    destruct (initialize_active _ _ _ _ _ Hunset Hcall2) as [Hruns2 _].
    simpl. lia.
Qed.

Lemma initialize_once_after_success_witness :
  setup_runs
    (run_calls [(env_one_file, None);
                (env_one_file, Some "/usr/share/icudtl.dat");
                (env_one_file, None)] fresh_process).1 = 2 ∧
  shim_v8_initialize env_one_file None
    {| g_v8_once := true; g_platform := true; setup_runs := 2 |}
    = ({| g_v8_once := true; g_platform := true; setup_runs := 2 |}, 1%Z) ∧
  setup_runs (shim_v8_initialize env_one_file None
                (shim_v8_initialize env_one_file None fresh_process).1).1 = 2.
Proof.
  pose proof (initialize_once_after_success
    [(env_one_file, None); (env_one_file, Some "/usr/share/icudtl.dat");
     (env_one_file, None)]) as (Hcount & Hready & Hretry).
  split; [exact Hcount|]. split.
  - apply Hready. reflexivity.
  - apply (Hretry env_one_file None fresh_process); reflexivity.
Defined.

End InitializerFacts.

Module ShimFacts.
Import Shim.

Example split_dots_abc : split_dots "a.b.c" = ["a"; "b"; "c"].
Proof. reflexivity. Qed.

Example split_dots_trailing : split_dots "a." = ["a"; ""].
Proof. reflexivity. Qed.

Example split_dots_gap : split_dots "a..b" = ["a"; ""; "b"].
Proof. reflexivity. Qed.

Example by_index_abc :
  ensure_property_path_by_index 0 "a.b.c" toy_state
  = Some (ensure_property_path 0 "a.b.c" toy_state).
Proof. reflexivity. Qed.

Example by_index_trailing_dot :
  snd <$> ensure_property_path_by_index 0 "a." toy_state
  = Some (PathError "property name was empty").
Proof. reflexivity. Qed.

Example by_index_gap :
  snd <$> ensure_property_path_by_index 0 "a..b" toy_state
  = Some (PathError "property path contained an empty segment").
Proof. reflexivity. Qed.

Example create_context_toy :
  shim_create_context (Some toy_isolate) empty_state
  = ({| st_heap := [empty_object]; st_trace := [] |}, Some toy_context).
Proof. reflexivity. Qed.

(** *** Out-parameters *)

Lemma assign_error_clear error_out message :
  assign_error (clear error_out) message = assign_error error_out message.
Proof. by destruct error_out. Qed.

Lemma clear_clear p : clear (clear p) = clear p.
Proof. by destruct p. Qed.

Lemma value_to_utf8_is_Some E h isolate v :
  is_Some (value_to_utf8 E h isolate v).
Proof.
  unfold value_to_utf8, copy_string.
  destruct isolate, v; try destruct (Utf8Value _ _ _); eauto.
Qed.

Local Ltac failure_side result_out error_out :=
  solve [left; destruct result_out, error_out; simpl;
         (split; [done|]); (split; [done|]);
         first [by eexists | by exists EmptyString]].

Local Ltac success_side E h isolate v error_out :=
  right; simpl; split; [done|]; split; [by destruct error_out|];
  first [ destruct (value_to_utf8_is_Some E h isolate v) as [text Htext];
          rewrite Htext; by exists text
        | by exists EmptyString ].

Lemma eval_one_side E handle source result_out error_out st :
  one_side_populated result_out error_out
    (shim_context_eval E handle source result_out error_out st).
Proof.
  unfold shim_context_eval.
  destruct (ensure_context handle) as [context|error];
    [|failure_side result_out error_out].
  destruct source as [source|]; [|failure_side result_out error_out].
  destruct (cache context !! source) as [unbound|].
  - destruct (Script_Run _ _ _ _) as [st' [result|tc]];
      [|failure_side result_out error_out].
    destruct result_out;
      success_side E (st_heap st') (ctx_isolate context) (Some result)
        error_out.
  - destruct (Compile E source) as [unbound|tc];
      [|failure_side result_out error_out].
    destruct (_ <=? _)%N;
      (destruct (Script_Run _ _ _ _) as [st' [result|tc]];
         [|failure_side result_out error_out]);
      destruct result_out;
      success_side E (st_heap st') (ctx_isolate context) (Some result)
        error_out.
Qed.

Lemma script_run_one_side E script_handle context_handle result_out
    error_out st :
  one_side_populated result_out error_out
    (shim_script_run E script_handle context_handle result_out error_out st).
Proof.
  unfold shim_script_run.
  destruct (ensure_script script_handle) as [sw|error];
    [|failure_side result_out error_out].
  destruct (ensure_context context_handle) as [cw|error];
    [|failure_side result_out error_out].
  case_bool_decide; [failure_side result_out error_out|].
  destruct (script sw) as [unbound|]; [|failure_side result_out error_out].
  destruct (Script_Run _ _ _ _) as [st' [result|tc]];
    [|failure_side result_out error_out].
  destruct result_out;
    success_side E (st_heap st') (ctx_isolate cw) (Some result) error_out.
Qed.

Lemma call_function_one_side E H handle fn_name args arg_count result_out
    error_out st :
  one_side_populated result_out error_out
    (shim_context_call_function E H handle fn_name args arg_count
       result_out error_out st).
Proof.
  unfold shim_context_call_function.
  destruct (ensure_context handle) as [context|error];
    [|failure_side result_out error_out].
  destruct fn_name as [fn_name|]; [|failure_side result_out error_out].
  destruct (Object_Get _ _ _) as [[| | | | |function]|tc];
    try failure_side result_out error_out.
  destruct (IsFunction _ _); [|failure_side result_out error_out].
  destruct (Function_Call _ _ _ _ _ _ _) as [st' [result|tc]];
    [|failure_side result_out error_out].
  destruct result_out;
    success_side E (st_heap st') (ctx_isolate context) (Some result)
      error_out.
Qed.

Lemma compile_script_one_side E handle source error_out st :
  let c := shim_compile_script E handle source error_out st in
  (cr_handle c = None ∧
   ∃ message : string,
     cr_error c = match error_out with
                  | Some _ => Some (Some message)
                  | None => None
                  end) ∨
  (is_Some (cr_handle c) ∧
   cr_error c = match error_out with
                | Some _ => Some None
                | None => None
                end).
Proof.
  unfold shim_compile_script.
  destruct (ensure_isolate handle) as [w|error];
    [|left; destruct error_out; simpl; split; try done;
      first [by eexists | by exists EmptyString]].
  destruct source as [source|]; [|left; destruct error_out; simpl; split; try done;
      first [by eexists | by exists EmptyString]].
  destruct (Compile E source) as [compiled|tc];
    [|left; destruct error_out; simpl; split; try done;
      first [by eexists | by exists EmptyString]].
  right. destruct error_out; simpl; eauto.
Qed.

Lemma through_pointers_one_side (f : out_ptr → out_ptr → Ret)
    (result_out error_out : option N) (m : Memory) :
  (∀ result error, one_side_populated result error (f result error)) →
  (result_out = None ∨ result_out ≠ error_out) →
  one_side_in_memory result_out error_out
    (ret_status (through_pointers f result_out error_out m).1)
    (through_pointers f result_out error_out m).2 ∧
  ∀ a, Some a ≠ result_out → Some a ≠ error_out →
       (through_pointers f result_out error_out m).2 !! a = m !! a.
Proof.
  intros Hf Hdistinct. unfold through_pointers. cbn [fst snd].
  destruct (Hf (deref m result_out) (deref m error_out))
    as [(Hs & Hres & message & Herr)|(Hs & Herr & text & Hres)];
    rewrite Hs, Hres, Herr; cbn [Z.eqb]; clear Hs Hres Herr.
  - split.
    + left. split; [done|].
      destruct result_out as [x|], error_out as [e|]; simpl;
        (split; [|exists message]); intros a [= <-];
        rewrite ?lookup_insert_eq; try done.
      rewrite lookup_insert_ne by (destruct Hdistinct; congruence).
      by rewrite lookup_insert_eq.
    + intros a Ha He.
      destruct result_out as [x|], error_out as [e|]; simpl;
        rewrite ?lookup_insert_ne by congruence; done.
  - split.
    + right. split; [done|].
      destruct result_out as [x|], error_out as [e|]; simpl;
        (split; [|exists text]); intros a [= <-];
        rewrite ?lookup_insert_eq; try done.
      rewrite lookup_insert_ne by (destruct Hdistinct; congruence).
      by rewrite lookup_insert_eq.
    + intros a Ha He.
      destruct result_out as [x|], error_out as [e|]; simpl;
        rewrite ?lookup_insert_ne by congruence; done.
Qed.

(** C10, as stated, fails: the caller may pass one variable for both
    out-parameters. Then a successful eval leaves its result in the variable,
    so the error slot is not null on success, and a failed eval leaves the
    message in it, so the result slot is not null on failure. *)
Lemma out_parameters_alias_populates_both_sides :
  let variable := Some 5%N in
  let ok := through_pointers
              (fun result error =>
                 shim_context_eval toy_engine (Some toy_context)
                   (Some "'invalid V8 context handle'") result error
                   toy_state)
              variable variable ∅ in
  let failed := through_pointers
                  (fun result error =>
                     shim_context_eval toy_engine (Some toy_context)
                       (Some "(") result error toy_state)
                  variable variable ∅ in
  ret_status ok.1 = 1%Z ∧
  ok.2 !! 5%N = Some (Some "invalid V8 context handle") ∧
  ¬ points_to ok.2 variable None ∧
  ret_status failed.1 = 0%Z ∧
  failed.2 !! 5%N
  = Some (Some (String.append "SyntaxError: Unexpected end of input"
                  (String.append newline
                     "Uncaught SyntaxError: Unexpected end of input"))) ∧
  ¬ points_to failed.2 variable None.
Proof.
  intros variable ok failed.
  assert (ok.2 !! 5%N = Some (Some "invalid V8 context handle")) as Hok
    by (by vm_compute).
  assert (failed.2 !! 5%N
          = Some (Some (String.append "SyntaxError: Unexpected end of input"
                          (String.append newline
                             "Uncaught SyntaxError: Unexpected end of input"))))
    as Hfailed by (by vm_compute).
  split; [by vm_compute|]. split; [exact Hok|]. split.
  { intros Hnull. specialize (Hnull 5%N eq_refl). congruence. }
  split; [by vm_compute|]. split; [exact Hfailed|].
  intros Hnull. specialize (Hnull 5%N eq_refl). congruence.
Qed.

(** C10 (amended): when the result and error out-parameters are not the
    same variable, each of eval, run_script and call_function overwrites
    whatever the variables held and returns with exactly one side populated:
    on failure (status 0) the result variable is null and the error variable,
    if the caller passed one, holds a message; on success (status 1) the
    error variable is null and the result variable, if passed, holds the
    result string; no other variable of the caller is written. The same
    holds for compile_script, whose result side is the script handle it
    returns. *)
Theorem out_parameters_one_side (E : Engine) (H : Host)
    (result_out error_out : option N) (m : Memory) :
  (result_out = None ∨ result_out ≠ error_out) →
  (∀ handle source st,
     let called :=
       through_pointers
         (fun result error =>
            shim_context_eval E handle source result error st)
         result_out error_out m in
     one_side_in_memory result_out error_out (ret_status called.1) called.2 ∧
     ∀ a, Some a ≠ result_out → Some a ≠ error_out →
          called.2 !! a = m !! a) ∧
  (∀ script_handle context_handle st,
     let called :=
       through_pointers
         (fun result error =>
            shim_script_run E script_handle context_handle result error st)
         result_out error_out m in
     one_side_in_memory result_out error_out (ret_status called.1) called.2 ∧
     ∀ a, Some a ≠ result_out → Some a ≠ error_out →
          called.2 !! a = m !! a) ∧
  (∀ handle fn_name args arg_count st,
     let called :=
       through_pointers
         (fun result error =>
            shim_context_call_function E H handle fn_name args arg_count
              result error st)
         result_out error_out m in
     one_side_in_memory result_out error_out (ret_status called.1) called.2 ∧
     ∀ a, Some a ≠ result_out → Some a ≠ error_out →
          called.2 !! a = m !! a) ∧
  (∀ handle source st,
     let c := shim_compile_script E handle source (deref m error_out) st in
     (cr_handle c = None ∧
      ∃ message : string,
        points_to (store error_out (cr_error c) m) error_out (Some message))
     ∨
     (is_Some (cr_handle c) ∧
      points_to (store error_out (cr_error c) m) error_out None)).
Proof.
  intros Hdistinct. split; [|split; [|split]].
  - intros handle source st.
    apply through_pointers_one_side; [|done].
    intros. apply eval_one_side.
  - intros script_handle context_handle st.
    apply through_pointers_one_side; [|done].
    intros. apply script_run_one_side.
  - intros handle fn_name args arg_count st.
    apply through_pointers_one_side; [|done].
    intros. apply call_function_one_side.
  - intros handle source st.
    destruct (compile_script_one_side E handle source (deref m error_out) st)
      as [(Hh & message & Herr)|(Hh & Herr)]; cbv zeta.
    + left. split; [done|]. exists message. rewrite Herr.
      intros a ->. simpl. by rewrite lookup_insert_eq.
    + right. split; [done|]. rewrite Herr.
      intros a ->. simpl. by rewrite lookup_insert_eq.
Qed.

Lemma out_parameters_one_side_witness :
  let result_out := Some 1%N in
  let error_out := Some 2%N in
  let m : Memory := <[1%N := Some "stale"]> (<[2%N := Some "old"]> ∅) in
  let failed := through_pointers
                  (fun result error =>
                     shim_context_eval toy_engine (Some toy_context)
                       (Some "(") result error toy_state)
                  result_out error_out m in
  let ok := through_pointers
              (fun result error =>
                 shim_context_eval toy_engine (Some toy_context)
                   (Some "'invalid V8 context handle'") result error
                   toy_state)
              result_out error_out m in
  (ret_status failed.1 = 0%Z ∧
   failed.2 !! 1%N = Some None ∧
   failed.2 !! 2%N
   = Some (Some (String.append "SyntaxError: Unexpected end of input"
                   (String.append newline
                      "Uncaught SyntaxError: Unexpected end of input")))) ∧
  (ret_status ok.1 = 1%Z ∧
   ok.2 !! 2%N = Some None ∧
   ok.2 !! 1%N = Some (Some "invalid V8 context handle")).
Proof.
  intros result_out error_out m failed ok.
  assert (result_out = None ∨ result_out ≠ error_out) as Hdistinct
    by (right; discriminate).
  destruct (out_parameters_one_side toy_engine toy_host result_out error_out
              m Hdistinct) as (Heval & _).
  split.
  - destruct (Heval (Some toy_context) (Some "(") toy_state) as [Hside _].
    fold failed in Hside.
    destruct Hside as [(Hs & Hres & message & Herr)|(Hs & _)];
      [|by vm_compute in Hs].
    split; [exact Hs|]. split; [by apply Hres|].
    rewrite (Herr 2%N eq_refl). f_equal. f_equal.
    specialize (Herr 2%N eq_refl). vm_compute in Herr.
    injection Herr as <-. by vm_compute.
  - destruct (Heval (Some toy_context) (Some "'invalid V8 context handle'")
                toy_state) as [Hside _].
    fold ok in Hside.
    destruct Hside as [(Hs & _)|(Hs & Herr & text & Hres)];
      [by vm_compute in Hs|].
    split; [exact Hs|]. split; [by apply Herr|].
    rewrite (Hres 1%N eq_refl). f_equal. f_equal.
    specialize (Hres 1%N eq_refl). vm_compute in Hres.
    injection Hres as <-. by vm_compute.
Defined.

(** *** run_script across isolates *)

(** C8: when the script and the context are both valid and their isolates
    differ, run_script returns 0, writes the error message (to the error
    cell, when there is one), leaves the result cell null, and neither binds
    nor runs the script: the trace, the heap, the context and its cache are
    what they were. *)
Theorem script_run_rejects_foreign_isolate (E : Engine)
    (sw : ScriptWrapper) (cw : ContextWrapper)
    (result_out error_out : out_ptr) (st : State) :
  ensure_script (Some sw) = inl sw →
  ensure_context (Some cw) = inl cw →
  ctx_isolate cw ≠ isolate (sw_isolate_wrapper sw) →
  shim_script_run E (Some sw) (Some cw) result_out error_out st
  = {| ret_status := 0;
       ret_state := st;
       ret_context := Some cw;
       ret_result := clear result_out;
       ret_error :=
         assign_error error_out
           "script and context belong to different isolates" |}.
Proof.
  intros Hsw Hcw Hdiff. unfold shim_script_run. rewrite Hsw, Hcw.
  rewrite bool_decide_true by auto.
  by rewrite assign_error_clear.
Qed.

Lemma script_run_rejects_foreign_isolate_witness :
  shim_script_run toy_engine
    (Some {| sw_isolate_wrapper := other_isolate; script := Some 0%N;
             cache_key := "1 + 1" |})
    (Some toy_context) (Some (Some "stale")) (Some None) toy_state
  = {| ret_status := 0;
       ret_state := toy_state;
       ret_context := Some toy_context;
       ret_result := Some None;
       ret_error :=
         Some (Some "script and context belong to different isolates") |}.
Proof.
  apply (script_run_rejects_foreign_isolate toy_engine
           {| sw_isolate_wrapper := other_isolate; script := Some 0%N;
              cache_key := "1 + 1" |}
           toy_context (Some (Some "stale")) (Some None) toy_state).
  - reflexivity.
  - reflexivity.
  - vm_compute. discriminate.
Defined.

(** *** The legacy entry point *)

(** C9: [shim_eval] hands back the result string of [shim_context_eval]
    when that call returns 1 and its error string when it returns 0; in
    both cases the pointer is a non-null buffer made by [copy_string] during
    this call, for the caller to free; since the status is dropped, a
    successful result and an error message can be the same string. *)
Theorem shim_eval_returns_result_or_error (E : Engine)
    (handle : option ContextWrapper) (source : option string) (st : State) :
  let r := shim_context_eval E handle source (Some None) (Some None) st in
  let returned := (shim_eval E handle source st).2 in
  (ret_status r = 1%Z →
     ∃ text, ret_result r = Some (Some text) ∧ ret_error r = Some None ∧
             returned = Some text) ∧
  (ret_status r = 0%Z →
     ∃ message, ret_error r = Some (Some message) ∧
                ret_result r = Some None ∧ returned = Some message) ∧
  (ret_status r = 0%Z ∨ ret_status r = 1%Z) ∧
  (let ok := Some "'invalid V8 context handle'" in
   ret_status (shim_context_eval toy_engine (Some toy_context) ok
                 (Some None) (Some None) toy_state) = 1%Z ∧
   ret_status (shim_context_eval toy_engine None ok
                 (Some None) (Some None) toy_state) = 0%Z ∧
   (shim_eval toy_engine (Some toy_context) ok toy_state).2
   = (shim_eval toy_engine None ok toy_state).2).
Proof.
  intros r returned. subst returned. unfold shim_eval. fold r.
  pose proof (eval_one_side E handle source (Some None) (Some None) st)
    as [(Hs & Hres & message & Herr)|(Hs & Herr & text & Hres)];
    fold r in Hs, Hres, Herr; rewrite Hs, Hres, Herr; simpl.
  - split; [done|]. split; [eauto|]. split; [by left|]. by vm_compute.
  - split; [eauto|]. split; [done|]. split; [by right|]. by vm_compute.
Qed.

Lemma shim_eval_returns_result_or_error_witness :
  (shim_eval toy_engine (Some toy_context)
     (Some "'invalid V8 context handle'") toy_state).2
  = Some "invalid V8 context handle" ∧
  (shim_eval toy_engine None (Some "1") toy_state).2
  = Some "invalid V8 context handle".
Proof.
  split.
  - destruct (shim_eval_returns_result_or_error toy_engine
                (Some toy_context) (Some "'invalid V8 context handle'")
                toy_state) as (Hok & _).
    destruct Hok as (text & Hres & _ & ->); [reflexivity|].
    vm_compute in Hres. congruence.
  - destruct (shim_eval_returns_result_or_error toy_engine None (Some "1")
                toy_state) as (_ & Hfail & _).
    destruct Hfail as (message & Herr & _ & ->); [reflexivity|].
    vm_compute in Herr. congruence.
Defined.

(** *** Exception capture *)

Lemma append_cons c a b :
  String.append (String c a) b = String c (String.append a b).
Proof. reflexivity. Qed.

Lemma count_newlines_app a b :
  count_newlines (String.append a b) = count_newlines a + count_newlines b.
Proof.
  induction a as [|c a IH]; [done|].
  rewrite append_cons. cbn. rewrite IH. lia.
Qed.

Lemma append_empty_r s : String.append s EmptyString = s.
Proof.
  induction s as [|c s IH]; [done|]. rewrite append_cons. by f_equal.
Qed.

Lemma append_eq_empty a b :
  String.append a b = EmptyString → a = EmptyString ∧ b = EmptyString.
Proof. destruct a; [done|]. by rewrite append_cons. Qed.

Lemma capture_exception_shape (isolate : N) (tc : TryCatch) :
  HasCaught tc = true →
  (capture_exception (Some isolate) tc).2
  = String.append (default "unknown V8 exception" (ExceptionUtf8 tc))
      (match MessageUtf8 tc with
       | Some (Some detailed) => String.append newline detailed
       | _ => EmptyString
       end).
Proof.
  intros Hc. unfold capture_exception. rewrite Hc. simpl.
  destruct (MessageUtf8 tc) as [[detailed|]|]; by rewrite ?append_empty_r.
Qed.

Lemma c_str_nul_free_app text rest :
  c_str text = text →
  c_str (String.append text rest) = String.append text (c_str rest).
Proof.
  induction text as [|c text IH]; [done|].
  rewrite !append_cons. cbn [c_str].
  destruct (Ascii.eqb c "000"); [done|].
  intros [= Htext]. by rewrite IH.
Qed.

Lemma eval_reports_pending E context source result_out error_out st :
  ensure_context (Some context) = inl context →
  let r := shim_context_eval E (Some context) (Some source) result_out
             error_out st in
  match eval_pending E context source st with
  | Some tc =>
      ret_status r = 0%Z ∧
      ret_result r = match result_out with
                     | Some _ => Some None
                     | None => None
                     end ∧
      ret_error r
      = match error_out with
        | Some _ => Some (Some (capture_exception (ctx_isolate context) tc).2)
        | None => None
        end
  | None => ret_status r = 1%Z
  end.
Proof.
  intros Hctx r. subst r. unfold shim_context_eval, eval_pending.
  rewrite Hctx. cbv beta iota zeta.
  destruct (cache context !! source) as [unbound|]; cbv beta iota zeta.
  - unfold Script_Run. cbn [st_heap emit].
    destruct (out_result _) as [v|tc]; [done|].
    by destruct result_out, error_out.
  - destruct (Compile E source) as [unbound|tc]; cbv beta iota zeta;
      [|by destruct result_out, error_out].
    destruct (_ <=? _)%N; unfold Script_Run; cbn [st_heap emit with_cache
                                                   Shim.context];
      (destruct (out_result _) as [v|tc]; [done|]);
      by destruct result_out, error_out.
Qed.

(** C7, as stated, fails: a script that throws the string made of one NUL
    makes eval fail; the exception has a string form and the engine's
    diagnostic is available, but the error string the caller reads from the
    buffer ends at the first NUL, so it is empty and has a single line. *)
Lemma eval_error_string_can_be_empty :
  let r := shim_context_eval toy_engine (Some toy_context)
             (Some "throw '\0'") (Some None) (Some None) toy_state in
  let thrown := String "000"%char EmptyString in
  ret_status r = 0%Z ∧
  eval_pending toy_engine toy_context "throw '\0'" toy_state
  = Some {| HasCaught := true; ExceptionUtf8 := Some thrown;
            MessageUtf8 := Some (Some (String.append "Uncaught " thrown)) |} ∧
  ∃ buffer, ret_error r = Some (Some buffer) ∧
            buffer = String.append thrown
                       (String.append newline
                          (String.append "Uncaught " thrown)) ∧
            c_str buffer = EmptyString ∧
            line_count (c_str buffer) = 1.
Proof. vm_compute. repeat split. eexists. repeat split. Qed.

(** C7 (amended): with an exception pending, the captured message is the
    exception's own string form (the placeholder "unknown V8 exception" when
    it has none), followed by a newline and the engine's diagnostic when one
    is available; with no exception pending it is "V8 execution failed".
    The caller reads the message up to its first NUL; when the exception's
    text contains no NUL, what the caller reads starts with that text, has
    at least two lines when a diagnostic exists, and is non-empty when the
    text is non-empty or a diagnostic exists. An eval on a valid context
    fails exactly when its compilation or its run left an exception pending,
    and then reports the message captured from that exception, leaving the
    result cell null. *)
Theorem capture_exception_message (isolate : N) (tc : TryCatch) :
  let message := (capture_exception (Some isolate) tc).2 in
  (HasCaught tc = true →
     message
     = String.append (default "unknown V8 exception" (ExceptionUtf8 tc))
         (match MessageUtf8 tc with
          | Some (Some detailed) => String.append newline detailed
          | _ => EmptyString
          end) ∧
     ∀ text, ExceptionUtf8 tc = Some text → c_str text = text →
       (∃ rest, c_str message = String.append text rest) ∧
       (∀ detailed, MessageUtf8 tc = Some (Some detailed) →
          2 ≤ line_count (c_str message)) ∧
       (text ≠ EmptyString ∨
        (∃ detailed, MessageUtf8 tc = Some (Some detailed)) →
        c_str message ≠ EmptyString)) ∧
  (HasCaught tc = false → message = "V8 execution failed") ∧
  (∀ E context source result_out error_out st,
     ensure_context (Some context) = inl context →
     ctx_isolate context = Some isolate →
     let r := shim_context_eval E (Some context) (Some source) result_out
                error_out st in
     (eval_pending E context source st = Some tc →
        ret_status r = 0%Z ∧
        ret_result r = match result_out with
                       | Some _ => Some None
                       | None => None
                       end ∧
        ret_error r = match error_out with
                      | Some _ => Some (Some message)
                      | None => None
                      end) ∧
     (eval_pending E context source st = None → ret_status r = 1%Z)).
Proof.
  intros message. subst message. split; [|split].
  - intros Hc. rewrite (capture_exception_shape _ _ Hc).
    split; [done|]. intros text -> Htext. cbn [default].
    rewrite (c_str_nul_free_app _ _ Htext).
    split; [eauto|]. split.
    + intros detailed ->. unfold line_count, newline.
      rewrite count_newlines_app, append_cons. cbn [c_str].
      change (Ascii.eqb "010" "000") with false.
      cbn [count_newlines]. rewrite Ascii.eqb_refl. lia.
    + intros Hne Hempty. apply append_eq_empty in Hempty as [Ht Hd].
      destruct Hne as [Hne|[detailed Hdet]]; [done|].
      rewrite Hdet in Hd. unfold newline in Hd.
      by rewrite append_cons in Hd.
  - intros Hc. unfold capture_exception. by rewrite Hc.
  - intros E context source result_out error_out st Hctx Hiso r.
    pose proof (eval_reports_pending E context source result_out error_out
                  st Hctx) as Hpending.
    fold r in Hpending. rewrite Hiso in Hpending.
    split; intros Heq; by rewrite Heq in Hpending.
Qed.

Lemma capture_exception_message_witness :
  (capture_exception (Some 1%N) syntax_error).2
  = String.append "SyntaxError: Unexpected end of input"
      (String.append newline
         "Uncaught SyntaxError: Unexpected end of input") ∧
  2 ≤ line_count (c_str (capture_exception (Some 1%N) syntax_error).2) ∧
  c_str (capture_exception (Some 1%N) syntax_error).2 ≠ EmptyString ∧
  (capture_exception (Some 1%N)
     {| HasCaught := false; ExceptionUtf8 := None; MessageUtf8 := None |}).2
  = "V8 execution failed" ∧
  ret_error (shim_context_eval toy_engine (Some toy_context) (Some "(")
               (Some None) (Some None) toy_state)
  = Some (Some (capture_exception (Some 1%N) syntax_error).2) ∧
  ret_error (shim_context_eval toy_engine (Some toy_context)
               (Some "throw ''") (Some None) (Some None) toy_state)
  = Some (Some (String.append newline "Uncaught ")).
Proof.
  destruct (capture_exception_message 1%N syntax_error)
    as (Hcaught & _ & Heval).
  destruct Hcaught as (Hshape & Hread); [reflexivity|].
  destruct (Hread _ eq_refl eq_refl) as (_ & Hlines & Hnonempty).
  split; [exact Hshape|]. split; [by apply (Hlines _ eq_refl)|].
  split; [apply Hnonempty; by left|].
  split.
  - by apply (capture_exception_message 1%N
               {| HasCaught := false; ExceptionUtf8 := None;
                  MessageUtf8 := None |}).
  - split.
    + destruct (Heval toy_engine toy_context "(" (Some None) (Some None)
                  toy_state eq_refl eq_refl) as [Hfails _].
      by destruct (Hfails eq_refl) as (_ & _ & ->).
    + destruct (capture_exception_message 1%N (Catch_uncaught EmptyString))
        as (_ & _ & Hthrow).
      destruct (Hthrow toy_engine toy_context "throw ''" (Some None)
                  (Some None) toy_state eq_refl eq_refl) as [Hfails _].
      by destruct (Hfails eq_refl) as (_ & _ & ->).
Defined.

(** *** The script cache *)

Lemma emplace_lookup_None {V} (k : string) (v : V) (m : gmap string V) :
  m !! k = None → emplace k v m = <[k := v]> m.
Proof. intros Hk. unfold emplace. by rewrite Hk. Qed.

Lemma eval_hit E context source unbound result_out error_out st :
  ensure_context (Some context) = inl context →
  cache context !! source = Some unbound →
  let o := Run E unbound (Shim.context context) (st_heap st) in
  let r := shim_context_eval E (Some context) (Some source) result_out
             error_out st in
  ret_context r = Some context ∧
  st_heap (ret_state r) = out_heap o ∧
  st_trace (ret_state r)
  = st_trace st ++ [EvBind unbound] ++ [EvRun unbound] ++ out_events o ∧
  match out_result o with
  | inl v =>
      ret_status r = 1%Z ∧ ret_error r = clear error_out ∧
      ret_result r
      = match result_out with
        | Some _ =>
            Some (value_to_utf8 E (out_heap o) (ctx_isolate context) (Some v))
        | None => None
        end
  | inr tc =>
      ret_status r = 0%Z ∧ ret_result r = clear result_out ∧
      ret_error r
      = assign_error error_out (capture_exception (ctx_isolate context) tc).2
  end.
Proof.
  intros Hctx Hhit o r. subst r. unfold shim_context_eval.
  rewrite Hctx, Hhit. cbv beta iota zeta. unfold Script_Run, emit.
  cbn [st_heap st_trace]. fold o.
  destruct (out_result o) as [v|tc]; cbn;
    rewrite ?assign_error_clear, <- ?app_assoc; repeat split; try done.
  by destruct result_out.
Qed.

Lemma eval_miss E context source unbound result_out error_out st :
  ensure_context (Some context) = inl context →
  cache context !! source = None →
  Compile E source = inl unbound →
  (N.of_nat (String.length source) ≤ kMaxCacheableSourceLength)%N →
  let o := Run E unbound (Shim.context context) (st_heap st) in
  let r := shim_context_eval E (Some context) (Some source) result_out
             error_out st in
  ret_context r
  = Some (with_cache context (<[source := unbound]> (cache context))) ∧
  st_heap (ret_state r) = out_heap o ∧
  st_trace (ret_state r)
  = st_trace st ++ [EvCompile source] ++ [EvRun unbound] ++ out_events o ∧
  match out_result o with
  | inl v =>
      ret_status r = 1%Z ∧ ret_error r = clear error_out ∧
      ret_result r
      = match result_out with
        | Some _ =>
            Some (value_to_utf8 E (out_heap o) (ctx_isolate context) (Some v))
        | None => None
        end
  | inr tc =>
      ret_status r = 0%Z ∧ ret_result r = clear result_out ∧
      ret_error r
      = assign_error error_out (capture_exception (ctx_isolate context) tc).2
  end.
Proof.
  intros Hctx Hmiss Hcompile Hlen o r. subst r. unfold shim_context_eval.
  rewrite Hctx, Hmiss, Hcompile. cbv beta iota zeta.
  apply N.leb_le in Hlen. rewrite Hlen.
  rewrite (emplace_lookup_None _ _ _ Hmiss).
  unfold Script_Run, emit. cbn [st_heap st_trace Shim.context with_cache]. fold o.
  destruct (out_result o) as [v|tc]; cbn;
    rewrite ?assign_error_clear, <- ?app_assoc; repeat split; try done.
  by destruct result_out.
Qed.

Lemma eval_keeps_cache_bounded E context source result_out error_out st
    context' :
  cache_bounded context →
  ret_context (shim_context_eval E (Some context) source result_out
                 error_out st) = Some context' →
  cache_bounded context'.
Proof.
  intros Hbound. unfold shim_context_eval.
  destruct (ensure_context (Some context)) as [c|error] eqn:Hctx;
    [|by intros [= <-]].
  assert (c = context) as ->.
  { unfold ensure_context in Hctx. destruct (ctx_isolate context); congruence. }
  destruct source as [source|]; [|by intros [= <-]].
  destruct (cache context !! source) as [unbound|] eqn:Hlookup;
    cbv beta iota zeta.
  - destruct (Script_Run _ _ _ _) as [st' [v|tc]]; by intros [= <-].
  - destruct (Compile E source) as [unbound|tc]; cbv beta iota zeta;
      [|by intros [= <-]].
    destruct (_ <=? _)%N eqn:Hlen;
      (destruct (Script_Run _ _ _ _) as [st' [v|tc]]); intros [= <-];
      try done.
    all: rewrite (emplace_lookup_None _ _ _ Hlookup).
    all: intros key u; simpl; rewrite lookup_insert;
      case_decide as Hkey; [intros _; subst key; by apply N.leb_le
                           | by apply Hbound].
Qed.

Lemma compile_script_ok E w source error_out st u :
  ensure_isolate (Some w) = inl w →
  Compile E source = inl u →
  shim_compile_script E (Some w) (Some source) error_out st
  = {| cr_handle := Some {| sw_isolate_wrapper := w; script := Some u;
                            cache_key := source |};
       cr_state := emit st (EvCompile source);
       cr_error := clear error_out |}.
Proof.
  intros Hw Hcompile. unfold shim_compile_script. by rewrite Hw, Hcompile.
Qed.

Lemma script_run_ok E sw cw u v result_out error_out st :
  script sw = Some u →
  ensure_context (Some cw) = inl cw →
  ctx_isolate cw = isolate (sw_isolate_wrapper sw) →
  out_result (Run E u (context cw) (st_heap st)) = inl v →
  segment_empty (cache_key sw) = false →
  let r := shim_script_run E (Some sw) (Some cw) result_out error_out st in
  ret_status r = 1%Z ∧
  ret_context r
  = Some (with_cache cw (<[cache_key sw := u]> (cache cw))) ∧
  ret_result r
  = match result_out with
    | Some _ =>
        Some (value_to_utf8 E (out_heap (Run E u (context cw) (st_heap st)))
                (ctx_isolate cw) (Some v))
    | None => None
    end.
Proof.
  intros Hscript Hcw Hiso Hrun Hkey r. subst r. unfold shim_script_run.
  unfold ensure_script. cbv beta iota zeta. rewrite Hscript, Hcw.
  cbv beta iota zeta. rewrite bool_decide_false.
  - rewrite Hscript. unfold Script_Run, emit. cbn [st_heap st_trace].
    rewrite Hrun, Hkey. by destruct result_out.
  - intros [Hnone|Hne]; [|done].
    unfold ensure_context in Hcw. by rewrite Hnone in Hcw.
Qed.

Lemma long_source_length :
  N.of_nat (String.length long_source) = 65537%N.
Proof. by vm_compute. Qed.

Lemma long_source_compiles : Compile toy_engine long_source = inl 3%N.
Proof. by vm_compute. Qed.

Lemma long_source_not_empty : segment_empty long_source = false.
Proof. by vm_compute. Qed.

(** C2 at its failing input: a script compiled from a source of 65537
    bytes (65536 spaces and the literal [1]), then run on a fresh context,
    where it evaluates to 1, is inserted into that context's cache under its
    65537-byte key, although [kMaxCacheableSourceLength] is 65536; the cache
    was within bounds before the call and is not after it. *)
Theorem script_run_caches_oversized_source :
  let c := shim_compile_script toy_engine (Some toy_isolate)
             (Some long_source) (Some None) toy_state in
  let r := shim_script_run toy_engine (cr_handle c) (Some toy_context)
             (Some None) (Some None) (cr_state c) in
  ret_status r = 1%Z ∧ ret_result r = Some (Some "1") ∧
  (kMaxCacheableSourceLength < N.of_nat (String.length long_source))%N ∧
  cache_bounded toy_context ∧
  ∃ context', ret_context r = Some context' ∧
              cache context' !! long_source = Some 3%N ∧
              ¬ cache_bounded context'.
Proof.
  intros c r. subst r c.
  rewrite (compile_script_ok toy_engine toy_isolate long_source (Some None)
             toy_state 3%N eq_refl long_source_compiles).
  cbn [cr_handle cr_state].
  destruct (script_run_ok toy_engine
              {| sw_isolate_wrapper := toy_isolate; script := Some 3%N;
                 cache_key := long_source |}
              toy_context 3%N (VNumber 4607182418800017408) (Some None)
              (Some None) (emit toy_state (EvCompile long_source))
              eq_refl eq_refl eq_refl eq_refl long_source_not_empty)
    as (Hstatus & Hcontext & Hresult).
  split; [exact Hstatus|].
  split; [exact Hresult|].
  split; [rewrite long_source_length; by vm_compute|].
  split; [intros key u; unfold toy_context; cbn [cache];
          by rewrite lookup_empty|].
  eexists. split; [exact Hcontext|].
  cbn [cache with_cache cache_key].
  split; [by rewrite lookup_insert_eq|].
  intros Hbound.
  specialize (Hbound long_source 3%N). cbn [cache with_cache] in Hbound.
  rewrite lookup_insert_eq, long_source_length in Hbound.
  specialize (Hbound eq_refl). clear -Hbound.
  unfold kMaxCacheableSourceLength in Hbound. lia.
Qed.

(** C4, as stated, fails: a source within the length bound that does not
    compile is handed to the compiler by both calls, and nothing is
    cached. *)
Lemma eval_twice_recompiles_on_syntax_error :
  let r1 := shim_context_eval toy_engine (Some toy_context) (Some "(")
              (Some None) (Some None) toy_state in
  let r2 := shim_context_eval toy_engine (ret_context r1) (Some "(")
              (Some None) (Some None) (ret_state r1) in
  (N.of_nat (String.length "(") ≤ kMaxCacheableSourceLength)%N ∧
  st_trace (ret_state r2) = [EvCompile "("; EvCompile "("] ∧
  length (filter is_compile (st_trace (ret_state r2))) = 2 ∧
  ret_context r2 = Some toy_context.
Proof. by vm_compute. Qed.

(** C4 (amended): for a source within the length bound that the engine
    compiles, two evals of the same text on a valid context hand it to the
    compiler at most once. If the text was not cached, the first call
    compiles it, caches the unit under the exact text and runs it; if it
    was, the first call binds and runs the cached unit. The second call
    finds the text in the cache, binds that same unit and runs it, with no
    compilation, and reports what running that unit yields. *)
Theorem eval_twice_compiles_once (E : Engine) (context : ContextWrapper)
    (source : string) (unbound : UnboundScript)
    (result_out error_out : out_ptr) (st : State) :
  ensure_context (Some context) = inl context →
  (N.of_nat (String.length source) ≤ kMaxCacheableSourceLength)%N →
  Compile E source = inl unbound →
  let r1 := shim_context_eval E (Some context) (Some source) result_out
              error_out st in
  let r2 := shim_context_eval E (ret_context r1) (Some source) result_out
              error_out (ret_state r1) in
  let cached := default unbound (cache context !! source) in
  let o1 := Run E cached (Shim.context context) (st_heap st) in
  let o2 := Run E cached (Shim.context context) (out_heap o1) in
  st_trace (ret_state r1)
  = st_trace st
    ++ match cache context !! source with
       | Some _ => [EvBind cached]
       | None => [EvCompile source]
       end ++ [EvRun cached] ++ out_events o1 ∧
  (∃ context1, ret_context r1 = Some context1 ∧
               cache context1 = <[source := cached]> (cache context)) ∧
  st_trace (ret_state r2)
  = st_trace (ret_state r1) ++ [EvBind cached] ++ [EvRun cached]
    ++ out_events o2 ∧
  st_heap (ret_state r2) = out_heap o2 ∧
  match out_result o2 with
  | inl v =>
      ret_status r2 = 1%Z ∧ ret_error r2 = clear error_out ∧
      ret_result r2
      = match result_out with
        | Some _ =>
            Some (value_to_utf8 E (out_heap o2) (ctx_isolate context)
                    (Some v))
        | None => None
        end
  | inr tc =>
      ret_status r2 = 0%Z ∧ ret_result r2 = clear result_out ∧
      ret_error r2
      = assign_error error_out (capture_exception (ctx_isolate context) tc).2
  end.
Proof.
  intros Hctx Hlen Hcompile r1 r2 cached o1 o2.
  destruct (cache context !! source) as [u|] eqn:Hlookup; simpl in cached.
  - destruct (eval_hit E context source u result_out error_out st Hctx
                Hlookup) as (Hc1 & Hh1 & Ht1 & _).
    fold r1 in Hc1, Hh1, Ht1. fold cached in Ht1, Hh1. fold o1 in Ht1, Hh1.
    split; [done|]. split.
    { exists context. split; [done|]. by rewrite insert_id. }
    subst r2. rewrite Hc1.
    destruct (eval_hit E context source u result_out error_out
                (ret_state r1) Hctx Hlookup) as (_ & Hh2 & Ht2 & Hres2).
    rewrite Hh1 in Hh2, Ht2, Hres2. done.
  - destruct (eval_miss E context source unbound result_out error_out st
                Hctx Hlookup Hcompile Hlen) as (Hc1 & Hh1 & Ht1 & _).
    fold r1 in Hc1, Hh1, Ht1. fold cached in Ht1, Hh1. fold o1 in Ht1, Hh1.
    split; [done|]. split; [eauto|].
    subst r2. rewrite Hc1.
    set (context1 := with_cache context _).
    assert (ensure_context (Some context1) = inl context1) as Hctx1.
    { unfold ensure_context, ctx_isolate in *. simpl.
      destruct (isolate_wrapper context) as [w|]; [|done].
      by destruct (isolate w). }
    assert (cache context1 !! source = Some unbound) as Hhit1
      by apply lookup_insert_eq.
    destruct (eval_hit E context1 source unbound result_out error_out
                (ret_state r1) Hctx1 Hhit1) as (_ & Hh2 & Ht2 & Hres2).
    rewrite Hh1 in Hh2, Ht2, Hres2. done.
Qed.

Lemma eval_twice_compiles_once_witness :
  let r1 := shim_context_eval toy_engine (Some toy_context)
              (Some "'invalid V8 context handle'") (Some None) (Some None)
              toy_state in
  let r2 := shim_context_eval toy_engine (ret_context r1)
              (Some "'invalid V8 context handle'") (Some None) (Some None)
              (ret_state r1) in
  st_trace (ret_state r2)
  = [EvCompile "'invalid V8 context handle'"; EvRun 1%N;
     EvBind 1%N; EvRun 1%N] ∧
  ret_result r2 = Some (Some "invalid V8 context handle").
Proof.
  intros r1 r2.
  destruct (eval_twice_compiles_once toy_engine toy_context
              "'invalid V8 context handle'" 1%N (Some None) (Some None)
              toy_state)
    as (Ht1 & _ & Ht2 & _ & Hres2).
  - reflexivity.
  - by vm_compute.
  - reflexivity.
  - split.
    + fold r1 in Ht1, Ht2. fold r2 in Ht2. rewrite Ht2, Ht1. reflexivity.
    + fold r1 r2 in Hres2. simpl in Hres2. by destruct Hres2 as (_ & _ & ->).
Defined.

(** *** Disposal of the callback registry *)

Lemma dispose_fold (entries : list (string * option NativeCallbackData)) :
  ∀ st,
    foldl
      (fun st entry =>
         match entry.2 with
         | Some data => emit st (EvHostDrop (function_id data))
         | None => st
         end) st entries
    = {| st_heap := st_heap st;
         st_trace := st_trace st
           ++ map EvHostDrop
                (omap (fun entry : string * option NativeCallbackData =>
                         function_id <$> entry.2) entries) |}.
Proof.
  induction entries as [|[path [data|]] entries IH]; intros st; simpl.
  - rewrite app_nil_r. by destruct st.
  - rewrite IH. unfold emit. simpl. by rewrite <- app_assoc.
  - by rewrite IH.
Qed.

Lemma registered_ids_perm (m : gmap string (option NativeCallbackData)) :
  omap (fun entry : string * option NativeCallbackData =>
          function_id <$> entry.2) (map_to_list m)
  ≡ₚ (map_to_list
        (omap (fun entry : option NativeCallbackData =>
                 function_id <$> entry) m)).*2.
Proof.
  induction m as [|path entry m Hfresh IH] using map_ind.
  - by rewrite omap_empty, !map_to_list_empty.
  - rewrite map_to_list_insert by done. rewrite omap_insert.
    destruct entry as [data|]; simpl.
    + rewrite map_to_list_insert by (by rewrite lookup_omap, Hfresh).
      simpl. by rewrite IH.
    + rewrite delete_id by (by rewrite lookup_omap, Hfresh). done.
Qed.

(** C5, as stated, fails: the same id registered at two paths is dropped
    twice on disposal, so the ids of the drop notifications are not
    distinct and that id is dropped more than once. *)
Lemma dispose_drops_shared_id_twice :
  let r1 := shim_context_register_host_function toy_engine
              (Some toy_context) (Some "a") 7 (Some None) toy_state in
  let r2 := shim_context_register_host_function toy_engine
              (ret_context r1) (Some "b") 7 (Some None) (ret_state r1) in
  let st' := shim_dispose_context (ret_context r2) (ret_state r2) in
  ret_status r1 = 1%Z ∧ ret_status r2 = 1%Z ∧
  (size <$> (registered <$> ret_context r2)) = Some 2 ∧
  host_drops (st_trace st') = [7%N; 7%N] ∧
  ¬ NoDup (host_drops (st_trace st')).
Proof.
  vm_compute. repeat split; try done.
  intros Hnodup. apply NoDup_cons_1_1 in Hnodup. apply Hnodup. by left.
Qed.

(** C5 (amended): disposing a context whose registry holds N callbacks
    notifies the host exactly N times, once for each registered path with
    the id registered there, in the iteration order of the registry; the
    heap is untouched. Every registered id is dropped, and when no id is
    registered at two paths the dropped ids are pairwise distinct, each
    dropped exactly once; an id registered at several paths is dropped once
    per path. *)
Theorem dispose_drops_every_registration (c : ContextWrapper) (st : State) :
  let st' := shim_dispose_context (Some c) st in
  ∃ drops : list N,
    st_trace st' = st_trace st ++ map EvHostDrop drops ∧
    st_heap st' = st_heap st ∧
    drops ≡ₚ (map_to_list (registered c)).*2 ∧
    length drops = size (registered c) ∧
    (∀ path id, registered c !! path = Some id → id ∈ drops) ∧
    ((∀ p1 p2 id, registered c !! p1 = Some id →
                  registered c !! p2 = Some id → p1 = p2) →
     NoDup drops).
Proof.
  intros st'. subst st'. unfold shim_dispose_context, dispose_native_callbacks.
  cbn [fst with_cache native_callbacks]. rewrite dispose_fold.
  eexists. split; [reflexivity|]. split; [reflexivity|].
  pose proof (registered_ids_perm (native_callbacks c)) as Hperm.
  fold (registered c) in Hperm.
  split; [exact Hperm|]. split; [|split].
  - rewrite Hperm, length_fmap. apply length_map_to_list.
  - intros path id Hid. rewrite Hperm.
    apply list_elem_of_fmap. exists (path, id). split; [done|].
    by apply elem_of_map_to_list.
  - intros Hinj. rewrite Hperm. apply NoDup_fmap_2_strong.
    + intros [p1 id1] [p2 id2] H1%elem_of_map_to_list H2%elem_of_map_to_list.
      simpl. intros <-. f_equal. by eapply Hinj.
    + apply NoDup_map_to_list.
Qed.

Lemma dispose_drops_every_registration_witness :
  let c := {| isolate_wrapper := Some toy_isolate; context := 0;
              cache := ∅;
              native_callbacks :=
                <["host.echo" := Some (Build_NativeCallbackData 7)]>
                  (<["host.log" := Some (Build_NativeCallbackData 9)]> ∅) |} in
  ∃ drops : list N,
    st_trace (shim_dispose_context (Some c) toy_state)
    = map EvHostDrop drops ∧
    length drops = 2 ∧ 7%N ∈ drops ∧ 9%N ∈ drops ∧ NoDup drops.
Proof.
  intros c.
  destruct (dispose_drops_every_registration c toy_state)
    as (drops & Htrace & _ & _ & Hlen & Hall & Hnodup).
  exists drops. split; [exact Htrace|].
  split; [rewrite Hlen; by vm_compute|].
  split; [apply (Hall "host.echo"); by vm_compute|].
  split; [apply (Hall "host.log"); by vm_compute|].
  apply Hnodup. intros p1 p2 id.
  unfold registered, c. cbn [native_callbacks].
  rewrite !lookup_omap, !lookup_insert.
  repeat case_decide; subst; simpl;
    rewrite ?lookup_empty; simpl; congruence.
Defined.

(** *** Dotted paths *)

Lemma Object_Get_absent h l o key :
  h !! l = Some o → props o !! key = None → Object_Get h l key = inl VUndefined.
Proof. intros Hl Hk. unfold Object_Get. by rewrite Hl, Hk. Qed.

Lemma Object_Set_fresh h l o key v :
  h !! l = Some o → props o !! key = None → extensible o = true →
  Object_Set h l key v
  = inl (<[l := {| props := <[key := Data v]> (props o); call := call o;
                   extensible := extensible o |}]> h).
Proof.
  intros Hl Hk He. unfold Object_Set, write_protected.
  by rewrite Hl, Hk, He.
Qed.

Lemma Object_Get_lookup h l o key :
  h !! l = Some o →
  Object_Get h l key
  = match props o !! key with
    | Some (Data v) => inl v
    | Some (ReadOnly v) => inl v
    | Some (Accessor tc) => inr tc
    | None => inl VUndefined
    end.
Proof. intros Hl. unfold Object_Get. by rewrite Hl. Qed.

Lemma set_global_abc_conflict (c : ContextWrapper) (value : option string)
    (error_out : out_ptr) (st : State) a v :
  ensure_context (Some c) = inl c →
  Object_Get (st_heap st) (context c) "a" = inl (VObject a) →
  Object_Get (st_heap st) a "b" = inl v →
  v ≠ VUndefined → v ≠ VNull → IsObject v = false →
  shim_context_set_global_string (Some c) (Some "a.b.c") value error_out st
  = {| ret_status := 0; ret_state := st; ret_context := Some c;
       ret_result := None;
       ret_error := assign_error error_out
          "property path conflicts with existing non-object value" |}.
Proof.
  intros Hctx Ha Hb Hu Hn Ho.
  unfold shim_context_set_global_string, set_global_value.
  rewrite Hctx. cbv beta iota zeta.
  unfold ensure_property_path.
  change (split_dots "a.b.c") with ["a"; "b"; "c"].
  cbn [walk_segments segment_empty]. rewrite Ha.
  cbn [walk_segments segment_empty]. rewrite Hb.
  destruct v; try done; cbn; by rewrite assign_error_clear.
Qed.

Lemma set_global_abc_creates (c : ContextWrapper) (value : option string)
    (error_out : out_ptr) (st : State) og :
  ensure_context (Some c) = inl c →
  st_heap st !! context c = Some og →
  props og !! "a" = None → extensible og = true →
  let r := shim_context_set_global_string (Some c) (Some "a.b.c") value
             error_out st in
  let h := st_heap st in
  let h' := st_heap (ret_state r) in
  let a := length h in
  let b := S (length h) in
  ret_status r = 1%Z ∧ ret_error r = clear error_out ∧
  ret_context r = Some c ∧
  st_trace (ret_state r)
  = st_trace st ++ [EvSet (context c) "a" (VObject a);
                    EvSet a "b" (VObject b);
                    EvSet b "c" (VString (default "" value))] ∧
  length h' = S (S (length h)) ∧
  h' !! context c
  = Some {| props := <["a" := Data (VObject a)]> (props og);
            call := call og; extensible := true |} ∧
  h' !! a = Some {| props := {["b" := Data (VObject b)]}; call := None;
                    extensible := true |} ∧
  h' !! b = Some {| props := {["c" := Data (VString (default "" value))]};
                    call := None; extensible := true |} ∧
  (∀ l, l ≠ context c → l < length h → h' !! l = h !! l).
Proof.
  intros Hctx Hg Ha He r h h' a b.
  subst r h' a b h. unfold shim_context_set_global_string, set_global_value.
  rewrite Hctx. cbv beta iota zeta.
  unfold ensure_property_path.
  change (split_dots "a.b.c") with ["a"; "b"; "c"].
  pose proof (lookup_lt_Some _ _ _ Hg) as Hlt.
  cbn [walk_segments segment_empty].
  rewrite (Object_Get_absent _ _ _ _ Hg Ha).
  unfold Object_New. cbn [st_heap st_trace].
  erewrite Object_Set_fresh; [|by rewrite lookup_app_l|done..].
  cbn [walk_segments segment_empty st_heap st_trace]. rewrite He.
  remember (st_heap st) as h eqn:Hh.
  remember {| props := <["a" := Data (VObject (length h))]> (props og);
              call := call og; extensible := true |} as og' eqn:Hog'.
  remember (<[context c := og']> (h ++ [empty_object])) as h1 eqn:Hh1.
  assert (length h1 = S (length h)) as Hlen1.
  { subst h1. rewrite length_insert, length_app. simpl. lia. }
  assert (h1 !! length h = Some empty_object) as Ha1.
  { subst h1. rewrite list_lookup_insert_ne by lia.
    rewrite lookup_app_r by done. by rewrite Nat.sub_diag. }
  rewrite (Object_Get_absent _ _ _ _ Ha1 (lookup_empty _)).
  rewrite Hlen1.
  erewrite Object_Set_fresh;
    [|by rewrite lookup_app_l by lia|by apply lookup_empty|done].
  cbn [props call extensible empty_object].
  remember {| props := <["b" := Data (VObject (S (length h)))]> ∅;
              call := None; extensible := true |} as oa eqn:Hoa.
  remember (<[length h := oa]> (h1 ++ [empty_object])) as h2 eqn:Hh2.
  assert (length h2 = S (S (length h))) as Hlen2.
  { subst h2. rewrite length_insert, length_app. simpl. lia. }
  assert (h2 !! S (length h) = Some empty_object) as Hb2.
  { subst h2. rewrite list_lookup_insert_ne by lia.
    rewrite lookup_app_r by lia. by rewrite Hlen1, Nat.sub_diag. }
  unfold emit. cbn [st_heap st_trace]. rewrite <- ?Hh2.
  erewrite Object_Set_fresh; [|exact Hb2|by apply lookup_empty|done].
  cbn [props call extensible empty_object ret_status ret_error ret_context
       ret_state st_heap st_trace].
  split; [done|]. split; [done|]. split; [done|].
  split; [by rewrite <- !app_assoc|].
  split; [rewrite length_insert; lia|].
  split.
  { rewrite list_lookup_insert_ne by lia. rewrite Hh2.
    rewrite list_lookup_insert_ne by lia.
    rewrite lookup_app_l by lia. rewrite Hh1.
    apply list_lookup_insert_eq. rewrite length_app. simpl. lia. }
  split.
  { rewrite list_lookup_insert_ne by lia. rewrite Hh2.
    rewrite list_lookup_insert_eq by (rewrite length_app; lia).
    by rewrite Hoa, insert_empty. }
  split.
  { rewrite list_lookup_insert_eq by lia. by rewrite insert_empty. }
  intros l Hl Hll.
  rewrite list_lookup_insert_ne by lia. rewrite Hh2.
  rewrite list_lookup_insert_ne by lia.
  rewrite lookup_app_l by lia. rewrite Hh1.
  rewrite list_lookup_insert_ne by done.
  by rewrite lookup_app_l by lia.
Qed.

(** C6: on a global object that has no property [a] and is extensible (an
    empty namespace in particular), set_global with path "a.b.c" succeeds,
    creates two fresh objects, one stored at [a] and holding only [b], one
    stored at [a.b] and holding only [c], sets [a.b.c] to the value, and
    touches nothing else. When [a] is an object and [a.b] holds a value that is neither
    undefined nor null (which the walk treats as absent) nor an object, the
    call returns 0 with the message "property path conflicts with existing
    non-object value" and leaves heap and trace as they were. *)
Theorem set_global_creates_path_or_rejects (c : ContextWrapper)
    (value : option string) (error_out : out_ptr) (st : State) :
  ensure_context (Some c) = inl c →
  let r := shim_context_set_global_string (Some c) (Some "a.b.c") value
             error_out st in
  let h := st_heap st in
  let h' := st_heap (ret_state r) in
  (∀ og, h !! context c = Some og → props og !! "a" = None →
     extensible og = true →
     let a := length h in
     let b := S (length h) in
     ret_status r = 1%Z ∧ ret_error r = clear error_out ∧
     st_trace (ret_state r)
     = st_trace st ++ [EvSet (context c) "a" (VObject a);
                       EvSet a "b" (VObject b);
                       EvSet b "c" (VString (default "" value))] ∧
     length h' = S (S (length h)) ∧
     h' !! context c
     = Some {| props := <["a" := Data (VObject a)]> (props og);
               call := call og; extensible := true |} ∧
     h' !! a = Some {| props := {["b" := Data (VObject b)]};
                       call := None; extensible := true |} ∧
     h' !! b = Some {| props := {["c" := Data (VString (default "" value))]};
                       call := None; extensible := true |} ∧
     (∀ l, l ≠ context c → l < length h → h' !! l = h !! l) ∧
     member_chain h' (VObject (context c)) (split_dots "a.b.c")
     = Some (VString (default "" value))) ∧
  (∀ a v, Object_Get h (context c) "a" = inl (VObject a) →
          Object_Get h a "b" = inl v →
          v ≠ VUndefined → v ≠ VNull → IsObject v = false →
     r = {| ret_status := 0; ret_state := st; ret_context := Some c;
            ret_result := None;
            ret_error :=
              assign_error error_out
                "property path conflicts with existing non-object value" |}).
Proof.
  intros Hctx r h h'. split.
  - intros og Hg Ha Hext a b.
    destruct (set_global_abc_creates c value error_out st og Hctx Hg Ha Hext)
      as (Hs & He & _ & Ht & Hlen & Hhg & Hha & Hhb & Hrest).
    fold r in Hs, He, Ht, Hlen, Hhg, Hha, Hhb, Hrest.
    fold h h' in Hlen, Hhg, Hha, Hhb, Hrest. fold a in Hha, Hhg, Hhb, Ht.
    fold b in Hha, Hhb, Ht.
    repeat (split; [assumption|]).
    change (split_dots "a.b.c") with ["a"; "b"; "c"].
    cbn [member_chain].
    rewrite (Object_Get_lookup _ _ _ "a" Hhg). cbn [props].
    rewrite lookup_insert_eq.
    rewrite (Object_Get_lookup _ _ _ "b" Hha). cbn [props].
    rewrite lookup_singleton_eq.
    rewrite (Object_Get_lookup _ _ _ "c" Hhb). cbn [props].
    by rewrite lookup_singleton_eq.
  - intros a v Ha Hb Hu Hn Ho.
    by apply (set_global_abc_conflict c value error_out st a v).
Qed.

Lemma set_global_creates_path_or_rejects_witness :
  let r := shim_context_set_global_string (Some toy_context) (Some "a.b.c")
             (Some "v") (Some None) toy_state in
  let blocked := ret_state (shim_context_set_global_string (Some toy_context)
                              (Some "a.b") (Some "x") (Some None)
                              toy_state) in
  (ret_status r = 1%Z ∧
   member_chain (st_heap (ret_state r)) (VObject 0) ["a"; "b"; "c"]
   = Some (VString "v")) ∧
  shim_context_set_global_string (Some toy_context) (Some "a.b.c")
    (Some "v") (Some None) blocked
  = {| ret_status := 0; ret_state := blocked;
       ret_context := Some toy_context; ret_result := None;
       ret_error :=
         Some (Some "property path conflicts with existing non-object value")
    |}.
Proof.
  intros r blocked. split.
  - destruct (set_global_creates_path_or_rejects toy_context (Some "v")
                (Some None) toy_state eq_refl) as [Hcreate _].
    destruct (Hcreate empty_object eq_refl eq_refl eq_refl)
      as (Hs & _ & _ & _ & _ & _ & _ & _ & Hchain).
    split; [exact Hs | exact Hchain].
  - destruct (set_global_creates_path_or_rejects toy_context (Some "v")
                (Some None) blocked eq_refl) as [_ Hreject].
    apply (Hreject 1 (VString "x")); by vm_compute.
Defined.

(** *** Registration of host functions *)

Lemma Object_Get_object h l key x :
  Object_Get h l key = inl (VObject x) →
  ∃ o, h !! l = Some o ∧
       (props o !! key = Some (Data (VObject x)) ∨
        props o !! key = Some (ReadOnly (VObject x))).
Proof.
  unfold Object_Get. destruct (h !! l) as [o|]; [|done].
  destruct (props o !! key) as [[v|v|tc]|] eqn:Hk; [| |done..];
    intros [= ->]; eauto.
Qed.

Lemma Object_Get_app h o l key :
  l < length h → Object_Get (h ++ [o]) l key = Object_Get h l key.
Proof. intros Hl. unfold Object_Get. by rewrite lookup_app_l. Qed.


Lemma write_protected_app h o l key :
  l < length h → write_protected (h ++ [o]) l key = write_protected h l key.
Proof. intros Hl. unfold write_protected. by rewrite lookup_app_l. Qed.

(** A refused store changes nothing. *)
Lemma Object_Set_refused h l key v :
  write_protected h l key = true → Object_Set h l key v = inl h.
Proof.
  unfold Object_Set, write_protected.
  destruct (h !! l) as [o|]; [|done].
  destruct (props o !! key) as [[?|?|?]|]; try done; by intros ->.
Qed.

(** Whether the store lands or is refused, nothing but the slot written
    to can differ afterwards. *)
Lemma Object_Set_other h l key v h' :
  Object_Set h l key v = inl h' →
  length h' = length h ∧
  (∀ l' key', (l' ≠ l ∨ key' ≠ key) →
     Object_Get h' l' key' = Object_Get h l' key') ∧
  (∀ l', (call <$> h' !! l') = (call <$> h !! l')) ∧
  (∀ l', l' ≠ l → h' !! l' = h !! l').
Proof.
  unfold Object_Set. intros Hset.
  destruct (h !! l) as [o|] eqn:Ho; [|injection Hset as <-; done].
  assert (h' = h ∨
          h' = <[l := {| props := <[key := Data v]> (props o);
                         call := call o;
                         extensible := extensible o |}]> h) as [->| ->].
  { destruct (props o !! key) as [[?|?|?]|];
      destruct (write_protected h l key); try done;
      injection Hset as <-; auto. }
  { done. }
  pose proof (lookup_lt_Some _ _ _ Ho) as Hl.
  split; [by rewrite length_insert|]. split; [|split].
  - intros l' key' Hne. unfold Object_Get.
    destruct (decide (l' = l)) as [->|Hl'].
    + rewrite list_lookup_insert_eq by done. rewrite Ho. simpl.
      destruct Hne as [?|Hk]; [done|]. by rewrite lookup_insert_ne.
    + by rewrite list_lookup_insert_ne.
  - intros l'. destruct (decide (l' = l)) as [->|Hl'].
    + rewrite list_lookup_insert_eq by done. by rewrite Ho.
    + by rewrite list_lookup_insert_ne.
  - intros l' Hl'. by rewrite list_lookup_insert_ne.
Qed.

(** A store that the engine does not refuse lands. *)
Lemma Object_Set_inl h l key v h' :
  Object_Set h l key v = inl h' →
  l < length h → write_protected h l key = false →
  length h' = length h ∧
  Object_Get h' l key = inl v ∧
  (∀ l' key', (l' ≠ l ∨ key' ≠ key) →
     Object_Get h' l' key' = Object_Get h l' key') ∧
  (∀ l', (call <$> h' !! l') = (call <$> h !! l')).
Proof.
  intros Hset Hl Hwp.
  destruct (Object_Set_other _ _ _ _ _ Hset) as (Hlen & Hother & Hcall & _).
  split; [done|]. split; [|done].
  unfold Object_Set in Hset. rewrite Hwp in Hset.
  destruct (lookup_lt_is_Some_2 h l Hl) as [o Ho]. rewrite Ho in Hset.
  assert (h' = <[l := {| props := <[key := Data v]> (props o);
                         call := call o;
                         extensible := extensible o |}]> h) as ->.
  { destruct (props o !! key) as [[?|?|?]|]; congruence. }
  erewrite Object_Get_lookup by (by apply list_lookup_insert_eq).
  simpl. by rewrite lookup_insert_eq.
Qed.

Lemma extends_refl h : extends h h.
Proof. by split. Qed.

Lemma extends_trans h1 h2 h3 :
  extends h1 h2 → extends h2 h3 → extends h1 h3.
Proof. intros [Hl1 H1] [Hl2 H2]. split; [lia|]. eauto. Qed.

Lemma extends_app h o : extends h (h ++ [o]).
Proof.
  split; [rewrite length_app; lia|].
  intros l key x Hx. rewrite Object_Get_app; [done|].
  apply Object_Get_object in Hx as (o' & Ho' & _). by eapply lookup_lt_Some.
Qed.

Lemma chain_extends h h' pre : ∀ current target,
  extends h h' → chain h current pre target → chain h' current pre target.
Proof.
  induction pre as [|segment pre IH]; intros current target Hext; simpl;
    [done|].
  intros (next & Hget & Hchain). exists next. split; [by apply Hext|eauto].
Qed.

Lemma heap_closed_closed h : heap_closed h = true → closed h.
Proof.
  unfold heap_closed. rewrite forallb_forall. intros Hall l key x Hget.
  apply Object_Get_object in Hget as (o & Ho & Hk).
  specialize (Hall o). rewrite forallb_forall in Hall.
  assert (In o h) as Hin
    by (apply list_elem_of_In; by eapply list_elem_of_lookup_2).
  destruct Hk as [Hk|Hk].
  - specialize (Hall Hin (key, Data (VObject x))).
    simpl in Hall. apply Nat.ltb_lt, Hall.
    apply list_elem_of_In. by apply elem_of_map_to_list.
  - specialize (Hall Hin (key, ReadOnly (VObject x))).
    simpl in Hall. apply Nat.ltb_lt, Hall.
    apply list_elem_of_In. by apply elem_of_map_to_list.
Qed.


Lemma walk_segments_unfold segment segment2 rest current st :
  walk_segments (segment :: segment2 :: rest) current st
  = if segment_empty segment
    then (st, PathError "property path contained an empty segment")
    else
      let create :=
        let '(h1, fresh) := Object_New (st_heap st) in
        let st1 := {| st_heap := h1;
                      st_trace := st_trace st
                        ++ [EvSet current segment (VObject fresh)] |} in
        match Object_Set h1 current segment (VObject fresh) with
        | inr _ =>
            (st1, PathError
               "failed to assign intermediate object on property path")
        | inl h2 =>
            walk_segments (segment2 :: rest) fresh
              {| st_heap := h2; st_trace := st_trace st1 |}
        end in
      match Object_Get (st_heap st) current segment with
      | inr _ => create
      | inl VUndefined => create
      | inl VNull => create
      | inl (VObject next) => walk_segments (segment2 :: rest) next st
      | inl _ =>
          (st, PathError
             "property path conflicts with existing non-object value")
      end.
Proof. reflexivity. Qed.

Lemma index_shift n c s :
  String.index (S n) "." (String c s) = S <$> String.index n "." s.
Proof. simpl. by destruct (String.index n "." s). Qed.

Lemma ensure_property_path_loop_shift fuel : ∀ c path start current st,
  ensure_property_path_loop fuel (String c path) (S start) current st
  = ensure_property_path_loop fuel path start current st.
Proof.
  induction fuel as [|fuel IH]; intros c path start current st; [done|].
  cbn [ensure_property_path_loop].
  change (String.length (String c path)) with (S (String.length path)).
  change (S start <? S (String.length path))
    with (start <? String.length path).
  destruct (start <? String.length path); [|done].
  rewrite index_shift.
  destruct (String.index start "." path) as [dot|];
    cbn [fmap option_fmap option_map].
  - change (String.substring (S start) (S dot - S start) (String c path))
      with (String.substring start (dot - start) path).
    change (S dot + 1) with (S (dot + 1)).
    destruct (segment_empty _); [done|].
    cbv zeta. unfold Object_New.
    destruct (Object_Get _ _ _) as [[| | | | |next]|tc]; try done;
      try (destruct (Object_Set _ _ _ _) as [h2|tc']; [|done]);
      by rewrite IH.
  - change (String.substring (S start) (S (String.length path) - S start)
              (String c path))
      with (String.substring start (String.length path - start) path).
    done.
Qed.

Lemma ensure_property_path_loop_drop fuel n : ∀ path start current st,
  n ≤ String.length path →
  ensure_property_path_loop fuel path (n + start) current st
  = ensure_property_path_loop fuel (string_drop n path) start current st.
Proof.
  induction n as [|n IH]; intros path start current st Hn.
  - by destruct path.
  - destruct path as [|c path]; simpl in Hn; [lia|].
    cbn [string_drop Nat.add]. rewrite ensure_property_path_loop_shift.
    apply IH. lia.
Qed.

Lemma index_dot_cons c rest :
  String.index 0 "." (String c rest)
  = if Ascii.eqb c "." then Some 0 else S <$> String.index 0 "." rest.
Proof.
  cbn [String.index String.prefix].
  destruct (Ascii.eqb_spec c ".") as [->|Hne].
  - destruct (ascii_dec "." "."); [|done]. by destruct rest.
  - destruct (ascii_dec "." c) as [<-|_]; [done|].
    by destruct (String.index 0 "." rest).
Qed.

Lemma substring_all path :
  String.substring 0 (String.length path) path = path.
Proof. induction path as [|c path IH]; [done|]. simpl. by rewrite IH. Qed.

Lemma split_dots_cons path :
  ∃ segment rest, split_dots path = segment :: rest.
Proof.
  induction path as [|c path (segment & rest & IH)]; simpl; [eauto|].
  destruct (Ascii.eqb c "."); [eauto|]. rewrite IH. eauto.
Qed.

Lemma split_dots_index path :
  match String.index 0 "." path with
  | None => split_dots path = [path]
  | Some dot =>
      dot < String.length path ∧
      split_dots path
      = String.substring 0 dot path :: split_dots (string_drop (S dot) path)
  end.
Proof.
  induction path as [|c path IH]; [done|].
  rewrite index_dot_cons. cbn [split_dots].
  destruct (Ascii.eqb c "."); [simpl; split; [lia|done]|].
  destruct (String.index 0 "." path) as [dot|]; simpl.
  - destruct IH as [Hdot ->]. split; [lia|done].
  - by rewrite IH.
Qed.

Lemma string_drop_length n path :
  String.length (string_drop n path) ≤ String.length path - n.
Proof.
  revert path. induction n as [|n IH]; intros [|c path]; simpl; try lia.
  apply IH.
Qed.

Lemma ensure_property_path_loop_segments fuel : ∀ path current st,
  String.length path < fuel →
  ensure_property_path_loop fuel path 0 current st
  = Some (walk_segments (split_dots path) current st).
Proof.
  induction fuel as [|fuel IH]; intros path current st Hfuel; [lia|].
  cbn [ensure_property_path_loop].
  destruct (Nat.ltb_spec 0 (String.length path)) as [Hpos|Hzero];
    [|destruct path; [done|simpl in Hzero; lia]].
  pose proof (split_dots_index path) as Hsplit.
  destruct (String.index 0 "." path) as [dot|].
  - destruct Hsplit as [Hdot Hsplit]. rewrite Hsplit, Nat.sub_0_r.
    destruct (split_dots_cons (string_drop (S dot) path))
      as (segment2 & rest & Htail).
    rewrite Htail, walk_segments_unfold, <- Htail.
    destruct (segment_empty _); [done|].
    cbv zeta. unfold Object_New.
    assert (∀ next st',
      ensure_property_path_loop fuel path (dot + 1) next st'
      = Some (walk_segments (split_dots (string_drop (S dot) path)) next st'))
      as Hrec.
    { intros next st'.
      replace (dot + 1) with (S dot + 0) by lia.
      rewrite ensure_property_path_loop_drop by lia. apply IH.
      pose proof (string_drop_length (S dot) path). lia. }
    destruct (Object_Get _ _ _) as [[| | | | |next]|tc]; try done;
      try (destruct (Object_Set _ _ _ _) as [h2|tc']; [|done]);
      by rewrite Hrec.
  - rewrite Hsplit, Nat.sub_0_r, substring_all.
    cbn [walk_segments]. destruct path; [simpl in Hpos; lia|done].
Qed.

(** The loop over indices terminates within its fuel and computes what
    the walk over segments computes. *)
Lemma ensure_property_path_by_index_eq global path st :
  ensure_property_path_by_index global path st
  = Some (ensure_property_path global path st).
Proof.
  unfold ensure_property_path_by_index, ensure_property_path.
  destruct path as [|c path]; [done|].
  cbn [segment_empty]. apply ensure_property_path_loop_segments. lia.
Qed.

Lemma walk_any segments : ∀ current st st' res,
  walk_segments segments current st = (st', res) →
  ∃ sets,
    st_trace st' = st_trace st ++ sets ∧
    forallb is_object_set sets = true ∧
    extends (st_heap st) (st_heap st') ∧
    (∀ l, l < length (st_heap st) →
       (call <$> st_heap st' !! l) = (call <$> st_heap st !! l)) ∧
    (∀ target key, res = PathOk target key →
       Forall (fun s => s ≠ EmptyString) segments ∧
       last segments = Some key).
Proof.
  assert (∀ st : State, ∃ sets : list event,
            st_trace st = st_trace st ++ sets ∧
            forallb is_object_set sets = true ∧
            extends (st_heap st) (st_heap st) ∧
            (∀ l, l < length (st_heap st) →
               (call <$> st_heap st !! l) = (call <$> st_heap st !! l)))
    as Hstay.
  { intros st. exists []. rewrite app_nil_r. repeat split; try done. }
  induction segments as [|segment rest IH]; intros current st st' res.
  { intros [= <- <-]. destruct (Hstay st) as (sets & ? & ? & ? & ?).
    exists sets. repeat split; done. }
  destruct rest as [|segment2 rest].
  { simpl. destruct (Hstay st) as (sets & ? & ? & ? & ?).
    destruct segment as [|c segment]; simpl; intros [= <- <-]; exists sets;
      (split; [done|]); (split; [done|]); (split; [done|]);
      (split; [done|]); intros target key; [done|].
    intros [= <- <-]. split; [|done]. by repeat constructor. }
  rewrite walk_segments_unfold.
  destruct (segment_empty segment) eqn:Hempty.
  { intros [= <- <-]. destruct (Hstay st) as (sets & ? & ? & ? & ?).
    exists sets. repeat split; done. }
  assert (segment ≠ EmptyString) as Hne by (by destruct segment).
  cbv zeta.
  assert (
    (∀ x, Object_Get (st_heap st) current segment ≠ inl (VObject x)) →
    (let '(h1, fresh) := Object_New (st_heap st) in
     match Object_Set h1 current segment (VObject fresh) with
     | inr _ =>
         ({| st_heap := h1;
             st_trace := st_trace st
               ++ [EvSet current segment (VObject fresh)] |},
          PathError
            "failed to assign intermediate object on property path")
     | inl h2 =>
         walk_segments (segment2 :: rest) fresh
           {| st_heap := h2;
              st_trace :=
                st_trace
                  {| st_heap := h1;
                     st_trace := st_trace st
                       ++ [EvSet current segment (VObject fresh)] |} |}
     end) = (st', res) →
    ∃ sets,
      st_trace st' = st_trace st ++ sets ∧
      forallb is_object_set sets = true ∧
      extends (st_heap st) (st_heap st') ∧
      (∀ l, l < length (st_heap st) →
         (call <$> st_heap st' !! l) = (call <$> st_heap st !! l)) ∧
      (∀ target key, res = PathOk target key →
         Forall (fun s => s ≠ EmptyString) (segment :: segment2 :: rest) ∧
         last (segment :: segment2 :: rest) = Some key)) as Hcreate.
  { intros Hnot. unfold Object_New.
    destruct (Object_Set _ _ _ _) as [h2|tc] eqn:Hset.
    - apply Object_Set_other in Hset as (Hlen & Hother & Hcall & _).
      intros Hrec.
      apply IH in Hrec as (sets & Htrace & Hsets & Hext & Hcalls & Hok).
      cbn [st_heap st_trace] in *.
      exists (EvSet current segment (VObject (length (st_heap st))) :: sets).
      split; [by rewrite Htrace, <- app_assoc|].
      split; [done|]. split; [|split].
      + eapply extends_trans; [|exact Hext].
        split; [rewrite Hlen, length_app; lia|].
        intros l key x Hx.
        assert (l < length (st_heap st)) as Hlt.
        { apply Object_Get_object in Hx as (o & Ho & _).
          by eapply lookup_lt_Some. }
        rewrite Hother, Object_Get_app; [done..|].
        destruct (decide (l = current)) as [->|]; [|by left].
        right. intros ->. by eapply Hnot.
      + intros l Hl. rewrite Hcalls by (rewrite Hlen, length_app; lia).
        rewrite Hcall. by rewrite lookup_app_l.
      + intros target key Hres. apply Hok in Hres as [Hall Hlast].
        split; [by constructor|done].
    - intros [= <- <-].
      exists [EvSet current segment (VObject (length (st_heap st)))].
      cbn [st_heap st_trace]. split; [done|]. split; [done|].
      split; [apply extends_app|]. split; [|done].
      intros l Hl. by rewrite lookup_app_l. }
  destruct (Object_Get (st_heap st) current segment)
    as [[| | | | |next]|tc] eqn:Hget;
    try (by apply Hcreate);
    try (intros [= <- <-]; destruct (Hstay st) as (sets & ? & ? & ? & ?);
         exists sets; repeat split; done).
  intros Hrec.
  apply IH in Hrec as (sets & Htrace & Hsets & Hext & Hcalls & Hok).
  exists sets. split; [done|]. split; [done|]. split; [done|].
  split; [done|]. intros target key Hres.
  apply Hok in Hres as [Hall Hlast]. split; [by constructor|done].
Qed.






Lemma ensure_context_isolate c :
  ensure_context (Some c) = inl c → is_Some (ctx_isolate c).
Proof. unfold ensure_context. destruct (ctx_isolate c); [eauto|done]. Qed.




End ShimFacts.

(** ** Further properties of the initializer *)

Module InitializerExtras.
Import Initializer InitializerFacts.

(** What the setup body would answer in [env] for [icu_data_path]. *)
Lemma initialize_active_result env path p :
  g_v8_once p = false →
  (shim_v8_initialize env path p).2
  = if (match path with
        | Some (String c rest) => InitializeICU env (String c rest)
        | _ => InitializeICUDefaultLocation env
        end)
    then match platform_bringup env with
         | BringupOk => 1%Z
         | _ => 0%Z
         end
    else 0%Z.
Proof.
  intros Hflag. unfold shim_v8_initialize, call_once, setup_body.
  rewrite Hflag.
  destruct (match path with Some (String c rest) => _ | _ => _ end);
    simpl; [|done].
  by destruct (platform_bringup env).
Qed.

Lemma initialize_keeps_platform env path p :
  (g_v8_once p = true → g_platform p = true) →
  g_v8_once (shim_v8_initialize env path p).1 = true →
  g_platform (shim_v8_initialize env path p).1 = true.
Proof.
  intros Hinv. unfold shim_v8_initialize, call_once, setup_body.
  destruct (g_v8_once p) eqn:Hflag; [simpl; auto|].
  destruct (negb _); [done|].
  by destruct (platform_bringup env).
Qed.

Lemma run_calls_keeps_platform calls : ∀ p,
  (g_v8_once p = true → g_platform p = true) →
  g_v8_once (run_calls calls p).1 = true →
  g_platform (run_calls calls p).1 = true.
Proof.
  induction calls as [|[env path] rest IH]; intros p Hinv; [done|].
  simpl.
  pose proof (initialize_keeps_platform env path p Hinv) as Hinv1.
  destruct (shim_v8_initialize env path p) as [p1 r].
  specialize (IH p1 Hinv1).
  destruct (run_calls rest p1) as [p2 rs]. done.
Qed.

Lemma repeat_ones (calls : list (Env * option string)) :
  map (fun _ => 1%Z) calls = repeat 1%Z (length calls).
Proof. induction calls; simpl; congruence. Qed.

Lemma run_calls_shape calls : ∀ p,
  g_v8_once p = false →
  ∃ failures,
    failures ≤ length calls ∧
    (run_calls calls p).2
    = repeat 0%Z failures ++ repeat 1%Z (length calls - failures) ∧
    (g_v8_once (run_calls calls p).1 = true ↔ failures < length calls).
Proof.
  induction calls as [|[env path] rest IH]; intros p Hflag.
  { exists 0. simpl. rewrite Hflag. repeat split; try done; lia. }
  simpl.
  destruct (shim_v8_initialize env path p) as [p1 r] eqn:Hcall.
  destruct (initialize_active _ _ _ _ _ Hflag Hcall)
    as [_ [[-> Hset]|[-> Hunset]]].
  - rewrite (run_calls_ready _ _ Hset). simpl. exists 0. simpl.
    rewrite repeat_ones. repeat split; try done; lia.
  - destruct (IH p1 Hunset) as (failures & Hle & Hres & Hiff).
    destruct (run_calls rest p1) as [p2 rs]. simpl in *.
    exists (S failures). simpl. rewrite Hres.
    split; [lia|]. split; [done|]. rewrite Hiff. lia.
Qed.

(** X17: over every sequence of calls of [shim_v8_initialize] on a fresh
    process the results are a run of failures followed by successes only:
    once a call has returned 1 every later call returns 1. The guard is set
    exactly when some call returned 1, and whenever the guard is set the
    platform has been created. A call made while the guard is unset returns
    1 exactly when ICU could be loaded (from the given path, or from the
    default location when the path is null or empty) and the platform came
    up; a null path and an empty path are treated alike. *)
Theorem initialize_results_shape (calls : list (Env * option string)) :
  let p' := (run_calls calls fresh_process).1 in
  let results := (run_calls calls fresh_process).2 in
  (∃ failures,
     failures ≤ length calls ∧
     results = repeat 0%Z failures ++ repeat 1%Z (length calls - failures) ∧
     (g_v8_once p' = true ↔ failures < length calls)) ∧
  (g_v8_once p' = true → g_platform p' = true) ∧
  (∀ env path p, g_v8_once p = false →
     ((shim_v8_initialize env path p).2 = 1%Z ↔
      (match path with
       | Some (String c rest) => InitializeICU env (String c rest)
       | _ => InitializeICUDefaultLocation env
       end = true ∧ platform_bringup env = BringupOk)) ∧
     ((shim_v8_initialize env path p).2 = 0%Z ∨
      (shim_v8_initialize env path p).2 = 1%Z)) ∧
  (∀ env p,
     shim_v8_initialize env (Some EmptyString) p
     = shim_v8_initialize env None p).
Proof.
  intros p' results. subst p' results.
  split; [|split; [|split]].
  - destruct (run_calls_shape calls fresh_process eq_refl)
      as (failures & Hle & Hres & Hiff).
    by exists failures.
  - by apply run_calls_keeps_platform.
  - intros env path p Hflag.
    rewrite (initialize_active_result _ _ _ Hflag).
    destruct (match path with Some (String c rest) => _ | _ => _ end);
      destruct (platform_bringup env); split;
      try (split; [by intros ?|by intros [? ?]]); auto.
  - done.
Qed.

End InitializerExtras.

(** ** Further properties of the shim *)

Module ShimExtras.
Import Shim ShimFacts.



Lemma registered_insert c name data m :
  registered (with_native_callbacks c (<[name := Some data]> m))
  = <[name := function_id data]>
      (omap (fun entry : option NativeCallbackData => function_id <$> entry) m).
Proof. unfold registered. simpl. by rewrite omap_insert. Qed.

Lemma register_effect E c name id error_out st :
  let r := shim_context_register_host_function E (Some c) (Some name) id
             error_out st in
  ∃ sets drops c',
    ret_context r = Some c' ∧
    cache c' = cache c ∧ isolate_wrapper c' = isolate_wrapper c ∧
    context c' = context c ∧
    st_trace (ret_state r) = st_trace st ++ sets ++ map EvHostDrop drops ∧
    forallb is_object_set sets = true ∧
    ((ret_status r = 0%Z ∧ drops = [] ∧ c' = c) ∨
     (ret_status r = 1%Z ∧
      registered c' = <[name := id]> (registered c) ∧
      drops = match registered c !! name with
              | Some old => [old]
              | None => []
              end)).
Proof.
  intros r. subst r. unfold shim_context_register_host_function.
  assert (∀ st' sets message,
            st_trace st' = st_trace st ++ sets →
            forallb is_object_set sets = true →
            ∃ sets0 drops c',
              ret_context {| ret_status := 0; ret_state := st';
                             ret_context := Some c; ret_result := None;
                             ret_error := message |} = Some c' ∧
              cache c' = cache c ∧ isolate_wrapper c' = isolate_wrapper c ∧
              context c' = context c ∧
              st_trace (ret_state {| ret_status := 0; ret_state := st';
                             ret_context := Some c; ret_result := None;
                             ret_error := message |})
              = st_trace st ++ sets0 ++ map EvHostDrop drops ∧
              forallb is_object_set sets0 = true ∧
              ((ret_status {| ret_status := 0; ret_state := st';
                             ret_context := Some c; ret_result := None;
                             ret_error := message |} = 0%Z ∧ drops = [] ∧ c' = c) ∨
               (ret_status {| ret_status := 0; ret_state := st';
                             ret_context := Some c; ret_result := None;
                             ret_error := message |} = 1%Z ∧
                registered c' = <[name := id]> (registered c) ∧
                drops = match registered c !! name with
                        | Some old => [old]
                        | None => []
                        end))) as Hfail.
  { intros st' sets message Htrace Hsets. exists sets, [], c. simpl.
    rewrite app_nil_r. repeat split; try done. by left. }
  destruct (ensure_context (Some c)) as [c0|error] eqn:Hctx;
    [|by apply (Hfail _ []); [rewrite app_nil_r|]].
  assert (c0 = c) as ->.
  { unfold ensure_context in Hctx. destruct (ctx_isolate c); congruence. }
  cbv beta iota zeta. unfold ensure_property_path.
  destruct (walk_segments _ _ _) as [st1 [target key|error]] eqn:Hwalk;
    apply walk_any in Hwalk as (sets & Htrace & Hsets & _);
    [|by apply (Hfail _ sets)].
  destruct (GetFunction E (st_heap st1)) as [tc|]; [by apply (Hfail _ sets)|].
  unfold emit. cbn [st_heap st_trace].
  set (install := EvSet target key (VObject (length (st_heap st1)))).
  assert (forallb is_object_set (sets ++ [install]) = true) as Hsets'.
  { rewrite forallb_app, Hsets. done. }
  destruct (Object_Set _ _ _ _) as [h3|tc] eqn:Hset.
  2:{ apply (Hfail _ (sets ++ [install])); [|done].
      cbn [st_trace]. by rewrite Htrace, <- app_assoc. }
  unfold registered.
  destruct (native_callbacks c !! name) as [[old|]|] eqn:Hreg;
    cbn [ret_status ret_state ret_context st_heap st_trace].
  - eexists (sets ++ [install]), [function_id old], _.
    split; [done|]. cbn [cache isolate_wrapper context with_native_callbacks].
    repeat (split; [done|]).
    split; [rewrite Htrace, <- !app_assoc; done|]. split; [done|]. right.
    split; [done|]. rewrite lookup_omap, Hreg. split; [|done].
    rewrite emplace_lookup_None by apply lookup_delete_eq.
    rewrite insert_delete_eq. cbn [native_callbacks with_native_callbacks].
    by rewrite omap_insert.
  - eexists (sets ++ [install]), [], _.
    split; [done|]. cbn [cache isolate_wrapper context with_native_callbacks].
    repeat (split; [done|]).
    split; [rewrite Htrace, <- !app_assoc, app_nil_r; done|].
    split; [done|]. right.
    split; [done|]. rewrite lookup_omap, Hreg. split; [|done].
    rewrite emplace_lookup_None by apply lookup_delete_eq.
    rewrite insert_delete_eq. cbn [native_callbacks with_native_callbacks].
    by rewrite omap_insert.
  - eexists (sets ++ [install]), [], _.
    split; [done|]. cbn [cache isolate_wrapper context with_native_callbacks].
    repeat (split; [done|]).
    split; [rewrite Htrace, <- !app_assoc, app_nil_r; done|].
    split; [done|]. right.
    split; [done|]. rewrite lookup_omap, Hreg. split; [|done].
    rewrite emplace_lookup_None by done.
    cbn [native_callbacks with_native_callbacks].
    by rewrite omap_insert.
Qed.









(** X1: the loop of [ensure_property_path], run on indices into the path
    as the source writes it, returns for every path within one iteration
    per character (plus one), whatever the heap holds, and its result is
    the one of the walk over the dot-separated segments. *)
Theorem property_path_loop_terminates (global : loc) (path : string)
    (st : State) (extra : nat) :
  ensure_property_path_loop (S (String.length path) + extra) path 0 global st
  = Some (walk_segments (split_dots path) global st) ∧
  ensure_property_path_by_index global path st
  = Some (ensure_property_path global path st).
Proof.
  split.
  - apply ensure_property_path_loop_segments. lia.
  - apply ensure_property_path_by_index_eq.
Qed.

Lemma concat_cons sep x y l :
  String.concat sep (x :: y :: l)
  = String.append x (String.append sep (String.concat sep (y :: l))).
Proof. reflexivity. Qed.

Lemma concat_split_dots path : String.concat "." (split_dots path) = path.
Proof.
  induction path as [|c path IH]; [done|]. cbn [split_dots].
  destruct (split_dots_cons path) as (segment & rest & Hsplit).
  rewrite Hsplit in *.
  destruct (Ascii.eqb_spec c ".") as [->|Hne].
  - rewrite concat_cons, IH. done.
  - destruct rest as [|segment2 rest].
    + simpl in *. by rewrite IH.
    + rewrite concat_cons in *. rewrite append_cons. by rewrite IH.
Qed.

Lemma split_dots_no_dot path :
  Forall (fun s => String.index 0 "." s = None) (split_dots path).
Proof.
  induction path as [|c path IH]; [by repeat constructor|].
  cbn [split_dots].
  destruct (Ascii.eqb c ".") eqn:Hc; [by constructor|].
  destruct (split_dots path) as [|segment rest].
  - constructor; [|done]. rewrite index_dot_cons, Hc. done.
  - inversion IH as [|? ? Hseg Hrest]; subst.
    constructor; [|done]. rewrite index_dot_cons, Hc. by rewrite Hseg.
Qed.

(** X2: [ensure_property_path] succeeds only on a path whose dot-separated
    segments are all non-empty (no leading, trailing or doubled dot, and
    not the empty path), and the property name it returns is the last
    segment; the segments are the pieces of the path between its dots:
    joined with dots they give the path back, and none contains a dot. *)
Theorem property_path_success_shape (global : loc) (path : string)
    (st st' : State) (target : loc) (key : string) :
  ensure_property_path global path st = (st', PathOk target key) →
  Forall (fun s => s ≠ EmptyString) (split_dots path) ∧
  last (split_dots path) = Some key ∧
  String.concat "." (split_dots path) = path ∧
  Forall (fun s => String.index 0 "." s = None) (split_dots path).
Proof.
  unfold ensure_property_path. intros Hwalk.
  apply walk_any in Hwalk as (_ & _ & _ & _ & _ & Hok).
  destruct (Hok target key eq_refl) as [Hall Hlast].
  split; [done|]. split; [done|].
  split; [apply concat_split_dots|apply split_dots_no_dot].
Qed.

Lemma property_path_success_shape_witness :
  Forall (fun s => s ≠ EmptyString) (split_dots "host.info.name") ∧
  last (split_dots "host.info.name") = Some "name" ∧
  String.concat "." (split_dots "host.info.name") = "host.info.name" ∧
  Forall (fun s => String.index 0 "." s = None)
    (split_dots "host.info.name").
Proof.
  apply (property_path_success_shape 0 "host.info.name" toy_state
           (ensure_property_path 0 "host.info.name" toy_state).1 2 "name").
  by vm_compute.
Defined.


Lemma closed_heap_closed h : closed h → heap_closed h = true.
Proof.
  intros Hclosed. unfold heap_closed. apply forallb_forall.
  intros o Ho%list_elem_of_In%list_elem_of_lookup. destruct Ho as [l Hl].
  apply forallb_forall. intros [key s] Hs%list_elem_of_In%elem_of_map_to_list.
  destruct s as [[| | | | |x]|[| | | | |x]|tc]; try done; simpl;
    apply Nat.ltb_lt; apply (Hclosed l key);
    by rewrite (Object_Get_lookup _ _ _ key Hl), Hs.
Qed.

Lemma closed_app h o : closed h → props o = ∅ → closed (h ++ [o]).
Proof.
  intros Hclosed Hprops l key x Hx. rewrite length_app. simpl.
  destruct (decide (l < length h)) as [Hlt|Hge].
  - rewrite Object_Get_app in Hx by done. apply Hclosed in Hx. lia.
  - apply Object_Get_object in Hx as (o' & Ho' & Hk).
    assert (l = length h) as ->.
    { apply lookup_lt_Some in Ho'. rewrite length_app in Ho'.
      simpl in Ho'. lia. }
    rewrite lookup_app_r, Nat.sub_diag in Ho' by done.
    injection Ho' as <-. rewrite Hprops, lookup_empty in Hk.
    by destruct Hk.
Qed.

Lemma closed_set h l key v h' :
  closed h → Object_Set h l key v = inl h' →
  (∀ x, v = VObject x → x < length h) → closed h'.
Proof.
  intros Hclosed Hset Hv l' key' x Hx.
  pose proof Hset as Hset'.
  apply Object_Set_other in Hset' as (Hlen & Hother & _). rewrite Hlen.
  destruct (decide (l' = l ∧ key' = key)) as [[-> ->]|Hne].
  - destruct (decide (l < length h)) as [Hlt|Hge].
    + destruct (write_protected h l key) eqn:Hwp.
      * rewrite Object_Set_refused in Hset by done.
        injection Hset as <-. by eapply Hclosed.
      * apply Object_Set_inl in Hset as (_ & Hget & _); [|done..].
        rewrite Hget in Hx. injection Hx as ->. by apply Hv.
    + apply Object_Get_object in Hx as (o & Ho & _).
      apply lookup_lt_Some in Ho. lia.
  - rewrite Hother in Hx by (apply not_and_l in Hne; tauto).
    by eapply Hclosed.
Qed.

Lemma walk_closed segments : ∀ current st st' res,
  walk_segments segments current st = (st', res) →
  current < length (st_heap st) → closed (st_heap st) →
  closed (st_heap st').
Proof.
  induction segments as [|segment rest IH]; intros current st st' res.
  { by intros [= <- <-]. }
  destruct rest as [|segment2 rest].
  { simpl. destruct (segment_empty segment); by intros [= <- <-]. }
  rewrite walk_segments_unfold.
  destruct (segment_empty segment); [by intros [= <- <-]|].
  cbv zeta. intros Hwalk Hcur Hclosed.
  assert (
    (∀ x, Object_Get (st_heap st) current segment ≠ inl (VObject x)) →
    (let '(h1, fresh) := Object_New (st_heap st) in
     match Object_Set h1 current segment (VObject fresh) with
     | inr _ =>
         ({| st_heap := h1;
             st_trace := st_trace st
               ++ [EvSet current segment (VObject fresh)] |},
          PathError
            "failed to assign intermediate object on property path")
     | inl h2 =>
         walk_segments (segment2 :: rest) fresh
           {| st_heap := h2;
              st_trace :=
                st_trace
                  {| st_heap := h1;
                     st_trace := st_trace st
                       ++ [EvSet current segment (VObject fresh)] |} |}
     end) = (st', res) →
    closed (st_heap st')) as Hcreate.
  { intros Hnot. unfold Object_New.
    destruct (Object_Set _ _ _ _) as [h2|tc] eqn:Hset.
    - assert (closed h2) as Hclosed2.
      { apply (closed_set _ _ _ _ _
                 (closed_app _ empty_object Hclosed eq_refl) Hset).
        intros x [= <-]. rewrite length_app. simpl. lia. }
      apply Object_Set_other in Hset as (Hlen2 & _).
      rewrite length_app in Hlen2. simpl in Hlen2.
      intros Hrec. eapply IH; [exact Hrec|simpl; lia|done].
    - intros [= <- <-]. by apply closed_app. }
  destruct (Object_Get (st_heap st) current segment)
    as [[| | | | |next]|tc] eqn:Hget;
    try (by apply Hcreate); try (by injection Hwalk as <- <-).
  eapply IH; [exact Hwalk|by eapply Hclosed|done].
Qed.

Lemma set_global_value_closed c name js_value error_out st :
  (∀ x, js_value ≠ VObject x) →
  heap_closed (st_heap st) = true →
  context c < length (st_heap st) →
  let r := set_global_value (Some c) name js_value error_out st in
  heap_closed (st_heap (ret_state r)) = true ∧
  context c < length (st_heap (ret_state r)).
Proof.
  intros Hprim Hclosed%heap_closed_closed Hglobal r. subst r.
  unfold set_global_value.
  destruct (ensure_context (Some c)) as [c0|error] eqn:Hctx;
    [|by split; [apply closed_heap_closed|]].
  assert (c0 = c) as ->.
  { unfold ensure_context in Hctx. destruct (ctx_isolate c); congruence. }
  destruct name as [name|]; [|by split; [apply closed_heap_closed|]].
  cbv beta iota zeta. unfold ensure_property_path.
  destruct (walk_segments _ _ _) as [st1 res] eqn:Hwalk.
  pose proof (walk_closed _ _ _ _ _ Hwalk Hglobal Hclosed) as Hclosed1.
  pose proof Hwalk as Hany.
  apply walk_any in Hany as (_ & _ & _ & [Hlen _] & _).
  destruct res as [target key|error];
    [|split; [by apply closed_heap_closed|simpl; lia]].
  unfold emit. cbn [st_heap st_trace].
  destruct (Object_Set _ _ _ _) as [h|tc] eqn:Hset;
    cbn [ret_state st_heap]; [|split; [by apply closed_heap_closed|lia]].
  split.
  - apply closed_heap_closed. eapply closed_set; [done..|].
    intros x ->. by destruct (Hprim x).
  - apply Object_Set_other in Hset as (-> & _). lia.
Qed.

Lemma register_closed E c name id error_out st :
  heap_closed (st_heap st) = true →
  context c < length (st_heap st) →
  let r := shim_context_register_host_function E (Some c) name id
             error_out st in
  heap_closed (st_heap (ret_state r)) = true ∧
  context c < length (st_heap (ret_state r)).
Proof.
  intros Hclosed%heap_closed_closed Hglobal r. subst r.
  unfold shim_context_register_host_function.
  destruct (ensure_context (Some c)) as [c0|error] eqn:Hctx;
    [|by split; [apply closed_heap_closed|]].
  assert (c0 = c) as ->.
  { unfold ensure_context in Hctx. destruct (ctx_isolate c); congruence. }
  destruct name as [name|]; [|by split; [apply closed_heap_closed|]].
  cbv beta iota zeta. unfold ensure_property_path.
  destruct (walk_segments _ _ _) as [st1 res] eqn:Hwalk.
  pose proof (walk_closed _ _ _ _ _ Hwalk Hglobal Hclosed) as Hclosed1.
  pose proof Hwalk as Hany.
  apply walk_any in Hany as (_ & _ & _ & [Hlen _] & _).
  destruct res as [target key|error];
    [|split; [by apply closed_heap_closed|simpl; lia]].
  destruct (GetFunction E (st_heap st1)) as [tc|];
    [split; [by apply closed_heap_closed|simpl; lia]|].
  unfold emit. cbn [st_heap st_trace].
  assert (closed (st_heap st1 ++
            [{| props := ∅;
                call := Some (NativeFunction
                                (Some {| function_id := id |}) key);
                extensible := true |}]))
    as Hclosed2 by (by apply closed_app).
  destruct (Object_Set _ _ _ _) as [h|tc] eqn:Hset.
  - assert (closed h) as Hh.
    { eapply closed_set; [exact Hclosed2|exact Hset|].
      intros x [= <-]. rewrite length_app. simpl. lia. }
    apply Object_Set_other in Hset as (Hlenh & _).
    rewrite length_app in Hlenh. simpl in Hlenh.
    destruct (native_callbacks c !! name) as [[old|]|];
      cbn [ret_state st_heap emit];
      (split; [by apply closed_heap_closed|lia]).
  - cbn [ret_state st_heap]. split; [by apply closed_heap_closed|].
    rewrite length_app. simpl. lia.
Qed.

(** X4: [shim_create_context], [shim_context_set_global_string],
    [shim_context_set_global_number] and
    [shim_context_register_host_function] keep the heap well formed: if no
    property referred to a missing object before the call, none does after
    it, whether the call succeeds or fails, and the global object of the
    context is still in the heap. A context just created is valid, has an
    empty script cache and an empty callback registry, and its global
    object is a new object of the heap. *)
Theorem namespace_operations_keep_heap_closed (E : Engine) (st : State) :
  heap_closed (st_heap st) = true →
  (∀ handle,
     let created := shim_create_context handle st in
     heap_closed (st_heap created.1) = true ∧
     (ensure_isolate handle = inr "invalid isolate handle" →
      created = (st, None)) ∧
     (∀ w, ensure_isolate handle = inl w →
        ∃ c', created.2 = Some c' ∧ ensure_context (Some c') = inl c' ∧
              cache c' = ∅ ∧ native_callbacks c' = ∅ ∧
              context c' = length (st_heap st) ∧
              st_heap created.1 = st_heap st ++ [empty_object] ∧
              st_trace created.1 = st_trace st)) ∧
  (∀ c name error_out, context c < length (st_heap st) →
     (∀ value,
        let r := shim_context_set_global_string (Some c) name value
                   error_out st in
        heap_closed (st_heap (ret_state r)) = true ∧
        context c < length (st_heap (ret_state r))) ∧
     (∀ value,
        let r := shim_context_set_global_number (Some c) name value
                   error_out st in
        heap_closed (st_heap (ret_state r)) = true ∧
        context c < length (st_heap (ret_state r))) ∧
     (∀ id,
        let r := shim_context_register_host_function E (Some c) name id
                   error_out st in
        heap_closed (st_heap (ret_state r)) = true ∧
        context c < length (st_heap (ret_state r)))).
Proof.
  intros Hclosed. split.
  - intros handle created. subst created. unfold shim_create_context.
    destruct handle as [w|]; [|by repeat split].
    unfold ensure_isolate. destruct (isolate w) as [i|] eqn:Hi;
      [|by repeat split].
    cbn [fst snd st_heap st_trace Object_New].
    split; [|split; [done|]].
    { apply closed_heap_closed, closed_app; [|done].
      by apply heap_closed_closed. }
    intros w' [= <-]. eexists. split; [reflexivity|].
    unfold ensure_context, ctx_isolate. simpl. rewrite Hi. done.
  - intros c name error_out Hglobal. split; [|split].
    + intros value. by apply set_global_value_closed.
    + intros value. by apply set_global_value_closed.
    + intros id. by apply register_closed.
Qed.

Lemma namespace_operations_keep_heap_closed_witness :
  heap_closed (st_heap (shim_create_context (Some toy_isolate)
                          echo_state).1) = true ∧
  heap_closed
    (st_heap
       (ret_state
          (shim_context_set_global_number (Some echo_context)
             (Some "host.info.version") 4631107791820423168 None
             echo_state))) = true.
Proof.
  destruct (namespace_operations_keep_heap_closed toy_engine echo_state)
    as [Hcreate Hset]; [by vm_compute|].
  split.
  - apply (Hcreate (Some toy_isolate)).
  - apply (Hset echo_context (Some "host.info.version") None);
      vm_compute; lia.
Defined.







Lemma ensure_context_Some c c' :
  ensure_context (Some c) = inl c' → c' = c.
Proof. unfold ensure_context. destruct (ctx_isolate c); congruence. Qed.

Lemma eval_context_effect E c source result_out error_out st :
  let r := shim_context_eval E (Some c) source result_out error_out st in
  ret_context r = Some c ∨
  ∃ s u, source = Some s ∧ ensure_context (Some c) = inl c ∧
         cache c !! s = None ∧ Compile E s = inl u ∧
         (N.of_nat (String.length s) ≤ kMaxCacheableSourceLength)%N ∧
         ret_context r = Some (with_cache c (<[s := u]> (cache c))).
Proof.
  intros r. subst r. unfold shim_context_eval.
  destruct (ensure_context (Some c)) as [c0|error] eqn:Hctx; [|by left].
  apply ensure_context_Some in Hctx as ->.
  destruct source as [source|]; [|by left].
  destruct (cache c !! source) as [unbound|] eqn:Hlookup; cbv beta iota zeta.
  { destruct (Script_Run _ _ _ _) as [st' [v|tc]]; by left. }
  destruct (Compile E source) as [unbound|tc] eqn:Hcompile;
    cbv beta iota zeta; [|by left].
  destruct (_ <=? _)%N eqn:Hlen.
  - right. exists source, unbound. apply N.leb_le in Hlen.
    rewrite (emplace_lookup_None _ _ _ Hlookup).
    destruct (Script_Run _ _ _ _) as [st' [v|tc]];
      cbn [ret_context]; repeat split; try done;
      unfold ensure_context, ctx_isolate; cbn [isolate_wrapper with_cache];
      by destruct (ensure_context_isolate c) as [i Hi];
        [unfold ensure_context; destruct (ctx_isolate c) eqn:?; eauto|].
  - destruct (Script_Run _ _ _ _) as [st' [v|tc]]; by left.
Qed.

(** X9: an eval, successful or not, leaves the wrapper's isolate, global
    object and callback registry alone and changes the script cache by at
    most one insertion: every entry stays as it was, and a new entry is the
    evaluated source itself, absent before, within the length bound, mapped
    to the unit the compiler made of it. In particular a cache whose keys
    are all within the bound stays so. *)
Theorem eval_only_adds_to_cache (E : Engine) (c : ContextWrapper)
    (source : option string) (result_out error_out : out_ptr) (st : State) :
  let r := shim_context_eval E (Some c) source result_out error_out st in
  ∃ c', ret_context r = Some c' ∧
    isolate_wrapper c' = isolate_wrapper c ∧ context c' = context c ∧
    native_callbacks c' = native_callbacks c ∧
    (∀ key u, cache c !! key = Some u → cache c' !! key = Some u) ∧
    (∀ key u, cache c' !! key = Some u →
       cache c !! key = Some u ∨
       (source = Some key ∧ cache c !! key = None ∧
        Compile E key = inl u ∧
        (N.of_nat (String.length key) ≤ kMaxCacheableSourceLength)%N)) ∧
    (cache_bounded c → cache_bounded c').
Proof.
  intros r.
  destruct (eval_context_effect E c source result_out error_out st)
    as [Hsame|(s & u & -> & Hctx & Hmiss & Hcompile & Hlen & Hnew)];
    fold r in Hsame || fold r in Hnew.
  - exists c. repeat split; auto.
  - eexists. split; [exact Hnew|]. cbn [with_cache isolate_wrapper context
                                        native_callbacks cache].
    repeat split; try done.
    + intros key v Hkey. rewrite lookup_insert_ne; [done|congruence].
    + intros key v. rewrite lookup_insert. case_decide as Hk.
      * intros [= <-]. subst key. by right.
      * by left.
    + intros Hbound key v. cbn [cache with_cache].
      rewrite lookup_insert. case_decide as Hk.
      * intros _. by subst key.
      * apply Hbound.
Qed.

Lemma script_run_context_effect E sw cw result_out error_out st :
  let r := shim_script_run E (Some sw) (Some cw) result_out error_out st in
  (ret_status r = 0%Z ∧ ret_context r = Some cw) ∨
  ∃ u, ret_status r = 1%Z ∧ script sw = Some u ∧
       ensure_context (Some cw) = inl cw ∧
       ctx_isolate cw = isolate (sw_isolate_wrapper sw) ∧
       st_trace (ret_state r)
       = st_trace st ++ [EvBind u; EvRun u]
         ++ out_events (Run E u (context cw) (st_heap st)) ∧
       st_heap (ret_state r) = out_heap (Run E u (context cw) (st_heap st)) ∧
       ret_context r
       = Some (if segment_empty (cache_key sw) then cw
               else with_cache cw (<[cache_key sw := u]> (cache cw))).
Proof.
  intros r. subst r. unfold shim_script_run.
  destruct (ensure_script (Some sw)) as [sw0|error] eqn:Hsw; [|by left].
  assert (sw0 = sw) as ->.
  { unfold ensure_script in Hsw. destruct (script sw); congruence. }
  destruct (ensure_context (Some cw)) as [cw0|error] eqn:Hcw; [|by left].
  apply ensure_context_Some in Hcw as ->.
  case_bool_decide as Hiso; [by left|].
  destruct (script sw) as [u|] eqn:Hscript; [|by left].
  unfold Script_Run, emit. cbn [st_heap st_trace].
  destruct (out_result _) as [v|tc]; [|by left].
  right. exists u. cbn [ret_status ret_context ret_state st_trace st_heap].
  split; [done|]. split; [done|]. split; [done|].
  split.
  { destruct (decide (ctx_isolate cw = isolate (sw_isolate_wrapper sw)));
      [done|]. exfalso. apply Hiso. by right. }
  split; [by rewrite <- !app_assoc|]. split; [done|].
  by destruct (segment_empty _).
Qed.

(** X10: what run_script does to the context. A failed run leaves the
    wrapper as it was. A successful run binds and runs the script's unit
    and nothing else, inserts the unit under the script's source text,
    replacing what the cache held for that text, and leaves every other
    cache entry, the registry, the isolate and the global object alone; a
    script whose source text is empty changes nothing. *)
Theorem script_run_caches_its_unit (E : Engine) (sw : ScriptWrapper)
    (cw : ContextWrapper) (result_out error_out : out_ptr) (st : State) :
  let r := shim_script_run E (Some sw) (Some cw) result_out error_out st in
  (ret_status r = 0%Z ∨ ret_status r = 1%Z) ∧
  (ret_status r = 0%Z → ret_context r = Some cw) ∧
  (ret_status r = 1%Z →
   ∃ u cw',
     script sw = Some u ∧ ret_context r = Some cw' ∧
     st_trace (ret_state r)
     = st_trace st ++ [EvBind u; EvRun u]
       ++ out_events (Run E u (context cw) (st_heap st)) ∧
     isolate_wrapper cw' = isolate_wrapper cw ∧ context cw' = context cw ∧
     native_callbacks cw' = native_callbacks cw ∧
     (cache_key sw ≠ EmptyString → cache cw' !! cache_key sw = Some u) ∧
     (cache_key sw = EmptyString → cw' = cw) ∧
     (∀ key, key ≠ cache_key sw → cache cw' !! key = cache cw !! key)).
Proof.
  intros r.
  destruct (script_run_context_effect E sw cw result_out error_out st)
    as [[Hs Hc]|(u & Hs & Hscript & _ & _ & Htrace & _ & Hc)];
    fold r in Hs, Hc; try fold r in Htrace.
  - split; [by left|]. split; [done|]. rewrite Hs. done.
  - split; [by right|]. split; [rewrite Hs; done|]. intros _.
    eexists u, _. split; [done|]. split; [exact Hc|].
    split; [exact Htrace|].
    destruct (cache_key sw) as [|ch key] eqn:Hkey; cbn [segment_empty].
    + repeat split; try done.
    + cbn [with_cache isolate_wrapper context native_callbacks cache].
      repeat split; try done.
      * intros _. apply lookup_insert_eq.
      * intros key' Hne. by rewrite lookup_insert_ne.
Qed.

Lemma script_run_caches_its_unit_witness :
  let sw := {| sw_isolate_wrapper := toy_isolate; script := Some 1%N;
               cache_key := "'invalid V8 context handle'" |} in
  let r := shim_script_run toy_engine (Some sw) (Some toy_context)
             (Some None) (Some None) toy_state in
  ∃ cw', ret_context r = Some cw' ∧
         cache cw' !! "'invalid V8 context handle'" = Some 1%N ∧
         native_callbacks cw' = ∅.
Proof.
  intros sw r.
  destruct (script_run_caches_its_unit toy_engine sw toy_context (Some None)
              (Some None) toy_state) as (_ & _ & Hok).
  destruct Hok as (u & cw' & Hu & Hc & _ & _ & _ & Hreg & Hkey & _);
    [reflexivity|].
  exists cw'. split; [exact Hc|]. injection Hu as <-.
  split; [by apply Hkey|exact Hreg].
Defined.

(** X11: a script compiled with compile_script and run with success on a
    context primes that context's cache for eval: whatever the length of
    the source and whatever the cache held before, a following eval of the
    same text on the context binds and runs the unit of the script, and
    the compiler is not called. *)
Theorem compiled_run_primes_eval (E : Engine) (w : IsolateWrapper)
    (c : ContextWrapper) (source : string) (u : UnboundScript)
    (out1 out2 result_out error_out : out_ptr) (st : State) :
  ensure_isolate (Some w) = inl w →
  source ≠ EmptyString →
  Compile E source = inl u →
  let compiled := shim_compile_script E (Some w) (Some source) out1 st in
  let ran := shim_script_run E (cr_handle compiled) (Some c) out2 out1
               (cr_state compiled) in
  ret_status ran = 1%Z →
  let r := shim_context_eval E (ret_context ran) (Some source) result_out
             error_out (ret_state ran) in
  let o := Run E u (context c) (st_heap (ret_state ran)) in
  st_trace (ret_state r)
  = st_trace (ret_state ran) ++ [EvBind u; EvRun u] ++ out_events o ∧
  st_heap (ret_state r) = out_heap o ∧
  ret_context r = ret_context ran ∧
  (∃ c', ret_context ran = Some c' ∧ cache c' !! source = Some u).
Proof.
  intros Hw Hne Hcompile compiled ran. subst ran compiled.
  rewrite (compile_script_ok _ _ _ _ _ _ Hw Hcompile).
  cbn [cr_handle cr_state].
  set (sw := {| sw_isolate_wrapper := w; script := Some u;
                cache_key := source |}).
  set (ran := shim_script_run _ _ _ _ _ _).
  intros Hran.
  destruct (script_run_context_effect E sw c out2 out1
              (emit st (EvCompile source)))
    as [[Hs _]|(u' & _ & Hu & Hctx & _ & _ & _ & Hc)];
    fold ran in Hs || fold ran in Hc; [congruence|].
  injection Hu as <-. cbn [cache_key sw] in Hc.
  destruct source as [|ch source]; [done|]. cbn [segment_empty] in Hc.
  set (c' := with_cache c _) in Hc.
  assert (ensure_context (Some c') = inl c') as Hctx'.
  { unfold ensure_context, ctx_isolate in *. simpl.
    destruct (isolate_wrapper c) as [w'|]; [|done].
    by destruct (isolate w'). }
  assert (cache c' !! String ch source = Some u) as Hhit
    by apply lookup_insert_eq.
  rewrite Hc.
  destruct (eval_hit E c' (String ch source) u result_out error_out
              (ret_state ran) Hctx' Hhit) as (Hc' & Hheap & Htrace & _).
  split; [exact Htrace|]. split; [exact Hheap|]. split; [exact Hc'|].
  by exists c'.
Qed.

Lemma compiled_run_primes_eval_witness :
  let compiled := shim_compile_script toy_engine (Some toy_isolate)
                    (Some "'invalid V8 context handle'") None toy_state in
  let ran := shim_script_run toy_engine (cr_handle compiled)
               (Some toy_context) None None (cr_state compiled) in
  let r := shim_context_eval toy_engine (ret_context ran)
             (Some "'invalid V8 context handle'") (Some None) None
             (ret_state ran) in
  st_trace (ret_state r)
  = [EvCompile "'invalid V8 context handle'"; EvBind 1%N; EvRun 1%N;
     EvBind 1%N; EvRun 1%N].
Proof.
  intros compiled ran r.
  destruct (compiled_run_primes_eval toy_engine toy_isolate toy_context
              "'invalid V8 context handle'" 1%N None None (Some None) None
              toy_state) as (Htrace & _).
  - reflexivity.
  - discriminate.
  - reflexivity.
  - reflexivity.
  - fold compiled ran r in Htrace. rewrite Htrace. reflexivity.
Defined.



Lemma call_function_native E H c fn_name args arg_count result_out error_out
    st f o id name :
  ensure_context (Some c) = inl c →
  Object_Get (st_heap st) (context c) fn_name = inl (VObject f) →
  st_heap st !! f = Some o →
  call o = Some (NativeFunction (Some {| function_id := id |}) name) →
  let js_args := call_arguments args arg_count in
  let arguments :=
    map (fun v => default "" (value_to_utf8 E (st_heap st) (ctx_isolate c)
                                (Some v))) js_args in
  let r := shim_context_call_function E H (Some c) (Some fn_name) args
             arg_count result_out error_out st in
  st_trace (ret_state r)
  = st_trace st ++ [EvCall f js_args; EvHostInvoke id arguments] ∧
  st_heap (ret_state r) = st_heap st ∧
  ret_context r = Some c ∧
  let '(status, result_ptr, error_ptr) :=
    host_function_invoke H id arguments in
  if (status =? 0)%Z then
    ret_status r = 0%Z ∧
    ret_result r = match result_out with
                   | Some _ => Some None
                   | None => None
                   end ∧
    ret_error r
    = match error_out with
      | Some _ =>
          Some (Some (capture_exception (ctx_isolate c)
                        (Catch E (VString (default
                                   "host function invocation failed"
                                   error_ptr)))).2)
      | None => None
      end
  else
    ret_status r = 1%Z ∧
    ret_error r = match error_out with
                  | Some _ => Some None
                  | None => None
                  end ∧
    ret_result r
    = match result_out with
      | Some _ =>
          Some (value_to_utf8 E (st_heap st) (ctx_isolate c)
                  (Some match result_ptr with
                        | Some result => VString result
                        | None => VUndefined
                        end))
      | None => None
      end.
Proof.
  intros Hctx Hget Hf Hcall js_args arguments r. subst r.
  unfold shim_context_call_function. rewrite Hctx. cbv beta iota zeta.
  rewrite Hget. unfold IsFunction. rewrite Hf, Hcall.
  fold (call_arguments args arg_count). fold js_args.
  unfold Function_Call, emit. cbn [st_heap st_trace].
  rewrite Hf. cbn [mbind option_bind]. rewrite Hcall.
  unfold native_function_trampoline. cbn [Shim.function_id].
  fold arguments.
  destruct (host_function_invoke H id arguments)
    as [[status result_ptr] error_ptr].
  cbn [st_heap st_trace].
  destruct (status =? 0)%Z; [|destruct result_ptr];
    cbn [ret_state ret_status ret_context ret_result ret_error st_trace
         st_heap];
    rewrite <- ?app_assoc; repeat split; try done;
    try (by destruct result_out); by destruct error_out.
Qed.




Lemma ensure_context_with_native_callbacks c m :
  ensure_context (Some c) = inl c →
  ensure_context (Some (with_native_callbacks c m))
  = inl (with_native_callbacks c m).
Proof.
  unfold ensure_context, ctx_isolate. simpl.
  destruct (isolate_wrapper c) as [w|]; [|done]. by destruct (isolate w).
Qed.

(** X14: registration and call fit together. After register_host_function
    has returned 1 for a name without a dot, on a global object that takes
    the store, call_function with that name calls the function just
    installed, which invokes the host with the id just registered, exactly
    once, with the caller's arguments in their string form, and with no
    other call to engine or host. *)
Theorem register_then_call (E : Engine) (H : Host) (c : ContextWrapper)
    (name : string) (id : N) (args : option (list (option string)))
    (arg_count : nat) (error_out1 result_out error_out : out_ptr)
    (st : State) :
  ensure_context (Some c) = inl c →
  context c < length (st_heap st) →
  split_dots name = [name] →
  write_protected (st_heap st) (context c) name = false →
  let r1 := shim_context_register_host_function E (Some c) (Some name) id
              error_out1 st in
  ret_status r1 = 1%Z →
  let r2 := shim_context_call_function E H (ret_context r1) (Some name)
              args arg_count result_out error_out (ret_state r1) in
  let js_args := call_arguments args arg_count in
  let arguments :=
    map (fun v =>
           default "" (value_to_utf8 E (st_heap (ret_state r1))
                         (ctx_isolate c) (Some v))) js_args in
  st_trace (ret_state r2)
  = st_trace (ret_state r1)
    ++ [EvCall (length (st_heap st)) js_args; EvHostInvoke id arguments] ∧
  st_heap (ret_state r2) = st_heap (ret_state r1) ∧
  ret_context r2 = ret_context r1.
Proof.
  intros Hctx Hglobal Hsplit Hwp r1. subst r1.
  unfold shim_context_register_host_function. rewrite Hctx.
  cbv beta iota zeta. unfold ensure_property_path. rewrite Hsplit.
  cbn [walk_segments]. destruct (segment_empty name); [done|].
  destruct (GetFunction E (st_heap st)) as [tc|]; [done|].
  unfold emit. cbn [st_heap st_trace].
  destruct (Object_Set _ _ _ _) as [h3|tc] eqn:Hset; [|done].
  pose proof Hset as Hset'.
  apply Object_Set_inl in Hset' as (_ & Hget & _ & Hcall);
    [|rewrite length_app; simpl; lia|by rewrite write_protected_app].
  specialize (Hcall (length (st_heap st))).
  rewrite lookup_app_r, Nat.sub_diag in Hcall by done.
  destruct (h3 !! length (st_heap st)) as [o|] eqn:Ho; [|done].
  injection Hcall as Hcall.
  destruct (native_callbacks c !! name) as [[old|]|];
    cbn [ret_status ret_state ret_context emit st_heap st_trace]; intros _;
    (set (c1 := with_native_callbacks c _));
    (assert (ensure_context (Some c1) = inl c1) as Hctx1
       by (by apply ensure_context_with_native_callbacks));
    match goal with
    | |- context [shim_context_call_function _ _ _ _ _ _ _ _ ?st1] =>
        pose proof (call_function_native E H c1 name args arg_count
                      result_out error_out st1 (length (st_heap st)) o id
                      name Hctx1 Hget Ho Hcall)
          as (Htrace & Hheap2 & Hcontext & _)
    end;
    done.
Qed.

Lemma register_then_call_witness :
  let r1 := shim_context_register_host_function toy_engine
              (Some toy_context) (Some "echo") 7 None toy_state in
  let r2 := shim_context_call_function toy_engine toy_host (ret_context r1)
              (Some "echo") (Some [Some "ping"]) 1 None None
              (ret_state r1) in
  st_trace (ret_state r2)
  = [EvSet 0 "echo" (VObject 1); EvCall 1 [VString "ping"];
     EvHostInvoke 7 ["ping"]].
Proof.
  intros r1 r2.
  destruct (register_then_call toy_engine toy_host toy_context "echo" 7
              (Some [Some "ping"]) 1 None None None toy_state)
    as (Htrace & _).
  - reflexivity.
  - vm_compute. lia.
  - reflexivity.
  - reflexivity.
  - reflexivity.
  - fold r1 r2 in Htrace. rewrite Htrace. reflexivity.
Defined.

Lemma write_protected_lt h l key :
  write_protected h l key = true → l < length h.
Proof.
  unfold write_protected. destruct (h !! l) as [o|] eqn:Ho; [|done].
  intros _. by eapply lookup_lt_Some.
Qed.

(** X15: the engine reports a store that it refuses without an exception
    as done. When the property that the path ends in is read-only, or is
    absent from an object closed to extension, register_host_function still
    returns 1, enters the id into the registry and drops the id registered
    before at that path, but no property of the namespace changes: the
    function it made is referred to by no property, and the path keeps
    what it held. *)
Theorem register_on_refused_store (E : Engine) (c : ContextWrapper)
    (name : string) (id : N) (error_out : out_ptr) (st st1 : State)
    (target : loc) (key : string) :
  ensure_context (Some c) = inl c →
  ensure_property_path (context c) name st = (st1, PathOk target key) →
  GetFunction E (st_heap st1) = None →
  write_protected (st_heap st1) target key = true →
  let r := shim_context_register_host_function E (Some c) (Some name) id
             error_out st in
  ret_status r = 1%Z ∧
  st_heap (ret_state r)
  = st_heap st1
    ++ [{| props := ∅;
           call := Some (NativeFunction (Some {| function_id := id |}) key);
           extensible := true |}] ∧
  (∀ l k, l < length (st_heap st1) →
     Object_Get (st_heap (ret_state r)) l k = Object_Get (st_heap st1) l k) ∧
  st_trace (ret_state r)
  = st_trace st1
    ++ EvSet target key (VObject (length (st_heap st1)))
       :: match registered c !! name with
          | Some old => [EvHostDrop old]
          | None => []
          end ∧
  (∃ c', ret_context r = Some c' ∧
         registered c' = <[name := id]> (registered c)).
Proof.
  intros Hctx Hpath Hfn Hwp r. subst r.
  pose proof (write_protected_lt _ _ _ Hwp) as Htarget.
  unfold shim_context_register_host_function. rewrite Hctx.
  cbv beta iota zeta. rewrite Hpath, Hfn.
  unfold emit. cbn [st_heap st_trace].
  rewrite Object_Set_refused by (by rewrite write_protected_app).
  unfold registered. rewrite lookup_omap.
  destruct (native_callbacks c !! name) as [[old|]|] eqn:Hreg;
    cbn [ret_status ret_state ret_context st_heap st_trace emit
         option_bind mbind fmap option_fmap option_map];
    (split; [done|]); (split; [done|]);
    (split; [intros l k Hl; by apply Object_Get_app|]);
    (split; [by rewrite <- ?app_assoc|]);
    eexists; (split; [done|]);
    cbn [native_callbacks with_native_callbacks];
    rewrite ?emplace_lookup_None by (done || apply lookup_delete_eq);
    rewrite ?insert_delete_eq; by rewrite omap_insert.
Qed.

Lemma register_on_refused_store_witness :
  let global := {| props := {["undefined" := ReadOnly VUndefined]};
                   call := None; extensible := true |} in
  let st := {| st_heap := [global]; st_trace := [] |} in
  let r := shim_context_register_host_function toy_engine
             (Some toy_context) (Some "undefined") 7 None st in
  ret_status r = 1%Z ∧
  Object_Get (st_heap (ret_state r)) 0 "undefined" = inl VUndefined ∧
  ∃ c', ret_context r = Some c' ∧ registered c' !! "undefined" = Some 7%N.
Proof.
  intros global st r.
  destruct (register_on_refused_store toy_engine toy_context "undefined" 7
              None st st 0 "undefined")
    as (Hs & _ & Hsame & _ & c' & Hc' & Hreg).
  - reflexivity.
  - reflexivity.
  - reflexivity.
  - reflexivity.
  - split; [exact Hs|]. split.
    + fold r in Hsame. rewrite Hsame; [reflexivity|simpl; lia].
    + exists c'. split; [exact Hc'|]. rewrite Hreg.
      apply lookup_insert_eq.
Defined.

(** X16: every entry point that takes a context checks the handle before
    anything else, also before its other arguments: with a handle that is
    null or whose isolate is gone it returns 0 with the message "invalid V8
    context handle", nulls the result cell, and calls neither the engine
    nor the host, so that heap, trace and wrapper are untouched whatever
    the other arguments are, null ones included. run_script checks the
    script handle first. *)
Theorem invalid_context_handle_rejected (E : Engine) (H : Host)
    (handle : option ContextWrapper) (result_out error_out : out_ptr)
    (st : State) :
  ensure_context handle = inr "invalid V8 context handle" →
  let rejected result :=
    {| ret_status := 0; ret_state := st; ret_context := handle;
       ret_result := result;
       ret_error := match error_out with
                    | Some _ => Some (Some "invalid V8 context handle")
                    | None => None
                    end |} in
  let nulled := match result_out with
                | Some _ => Some None
                | None => None
                end in
  (∀ source,
     shim_context_eval E handle source result_out error_out st
     = rejected nulled) ∧
  (∀ name value,
     shim_context_set_global_string handle name value error_out st
     = rejected None) ∧
  (∀ name value,
     shim_context_set_global_number handle name value error_out st
     = rejected None) ∧
  (∀ name id,
     shim_context_register_host_function E handle name id error_out st
     = rejected None) ∧
  (∀ fn_name args arg_count,
     shim_context_call_function E H handle fn_name args arg_count
       result_out error_out st
     = rejected nulled) ∧
  (∀ sw, ensure_script (Some sw) = inl sw →
     shim_script_run E (Some sw) handle result_out error_out st
     = rejected nulled) ∧
  shim_dispose_context None st = st.
Proof.
  intros Hbad rejected nulled. subst rejected nulled.
  unfold shim_context_eval, shim_context_set_global_string,
    shim_context_set_global_number, set_global_value,
    shim_context_register_host_function, shim_context_call_function,
    shim_script_run.
  rewrite Hbad.
  repeat split; intros; try (by destruct result_out, error_out).
  rewrite H0. by destruct result_out, error_out.
Qed.

Lemma invalid_context_handle_rejected_witness :
  shim_context_eval toy_engine None None (Some (Some "stale")) (Some None)
    toy_state
  = {| ret_status := 0; ret_state := toy_state; ret_context := None;
       ret_result := Some None;
       ret_error := Some (Some "invalid V8 context handle") |} ∧
  shim_context_register_host_function toy_engine
    (Some {| isolate_wrapper := None; context := 0; cache := ∅;
             native_callbacks := ∅ |})
    (Some "host.echo") 7 (Some None) toy_state
  = {| ret_status := 0; ret_state := toy_state;
       ret_context := Some {| isolate_wrapper := None; context := 0;
                              cache := ∅; native_callbacks := ∅ |};
       ret_result := None;
       ret_error := Some (Some "invalid V8 context handle") |}.
Proof.
  split.
  - destruct (invalid_context_handle_rejected toy_engine toy_host None
                (Some (Some "stale")) (Some None) toy_state eq_refl)
      as (Heval & _).
    apply Heval.
  - destruct (invalid_context_handle_rejected toy_engine toy_host
                (Some {| isolate_wrapper := None; context := 0; cache := ∅;
                         native_callbacks := ∅ |})
                None (Some None) toy_state eq_refl)
      as (_ & _ & _ & Hregister & _).
    apply Hregister.
Defined.

(** X18: isolates are created and disposed in pairs. An isolate made by
    [shim_create_isolate] passes [ensure_isolate] and owns the allocator
    made for it; disposing it releases both, so the engine objects alive
    afterwards are those alive before the creation. When the engine cannot
    make the isolate, the allocator is released and null is returned, again
    leaving what was alive before. Disposing a null handle does nothing. *)
Theorem isolate_create_dispose (res : Resources) (new_allocator : N) :
  new_allocator ∉ live_allocators res →
  shim_create_isolate new_allocator None res = (res, None) ∧
  shim_dispose_isolate None res = res ∧
  ∀ i, i ∉ live_isolates res →
    let created := shim_create_isolate new_allocator (Some i) res in
    (∃ w, created.2 = Some w ∧ ensure_isolate (Some w) = inl w ∧
          isolate w = Some i ∧ allocator w = Some new_allocator) ∧
    i ∈ live_isolates created.1 ∧
    new_allocator ∈ live_allocators created.1 ∧
    shim_dispose_isolate created.2 created.1 = res.
Proof.
  intros Ha. destruct res as [isolates allocators]. simpl in Ha.
  unfold shim_create_isolate, shim_dispose_isolate. simpl.
  assert (∀ (x : N) (X : gset N), x ∉ X → ({[x]} ∪ X) ∖ {[x]} = X)
    as Hback.
  { intros x X Hx. apply set_eq. intros y.
    rewrite elem_of_difference, elem_of_union, elem_of_singleton.
    split; [tauto|]. intros Hy. split; [by right|]. by intros ->. }
  split; [by rewrite Hback|]. split; [done|].
  intros i Hi. split; [eauto|].
  split; [apply elem_of_union_l; by apply elem_of_singleton|].
  split; [apply elem_of_union_l; by apply elem_of_singleton|].
  by rewrite !Hback.
Qed.

Lemma isolate_create_dispose_witness :
  let res := {| live_isolates := {[1%N]}; live_allocators := {[1%N]} |} in
  shim_create_isolate 2%N None res = (res, None) ∧
  shim_dispose_isolate (shim_create_isolate 2%N (Some 2%N) res).2
    (shim_create_isolate 2%N (Some 2%N) res).1 = res.
Proof.
  intros res.
  destruct (isolate_create_dispose res 2%N) as (Hfail & _ & Hpair).
  - simpl. by apply not_elem_of_singleton.
  - split; [exact Hfail|].
    destruct (Hpair 2%N) as (_ & _ & _ & Hround);
      [simpl; by apply not_elem_of_singleton|].
    exact Hround.
Defined.

Lemma walk_other_keys segments : ∀ current st st' res,
  walk_segments segments current st = (st', res) →
  length (st_heap st) ≤ length (st_heap st') ∧
  ∀ l k, l < length (st_heap st) → k ∉ segments →
         Object_Get (st_heap st') l k = Object_Get (st_heap st) l k.
Proof.
  induction segments as [|segment rest IH]; intros current st st' res.
  { by intros [= <- <-]. }
  destruct rest as [|segment2 rest].
  { simpl. destruct (segment_empty segment); by intros [= <- <-]. }
  rewrite walk_segments_unfold.
  destruct (segment_empty segment); [by intros [= <- <-]|].
  cbv zeta.
  assert (
    (let '(h1, fresh) := Object_New (st_heap st) in
     match Object_Set h1 current segment (VObject fresh) with
     | inr _ =>
         ({| st_heap := h1;
             st_trace := st_trace st
               ++ [EvSet current segment (VObject fresh)] |},
          PathError
            "failed to assign intermediate object on property path")
     | inl h2 =>
         walk_segments (segment2 :: rest) fresh
           {| st_heap := h2;
              st_trace :=
                st_trace
                  {| st_heap := h1;
                     st_trace := st_trace st
                       ++ [EvSet current segment (VObject fresh)] |} |}
     end) = (st', res) →
    length (st_heap st) ≤ length (st_heap st') ∧
    ∀ l k, l < length (st_heap st) → k ∉ segment :: segment2 :: rest →
           Object_Get (st_heap st') l k = Object_Get (st_heap st) l k)
    as Hcreate.
  { unfold Object_New.
    destruct (Object_Set _ _ _ _) as [h2|tc] eqn:Hset.
    - apply Object_Set_other in Hset as (Hlen & Hother & _).
      rewrite length_app in Hlen. simpl in Hlen.
      intros Hrec. apply IH in Hrec as [Hle Hsame]. simpl in Hle, Hsame.
      split; [lia|]. intros l k Hl Hk.
      rewrite Hsame; [|lia|by intros ?; apply Hk; right].
      rewrite Hother; [by apply Object_Get_app|].
      right. intros ->. apply Hk. by left.
    - intros [= <- <-]. simpl. rewrite length_app. split; [lia|].
      intros l k Hl _. by apply Object_Get_app. }
  destruct (Object_Get (st_heap st) current segment)
    as [[| | | | |next]|tc] eqn:Hget;
    try (by apply Hcreate); try (by intros [= <- <-]).
  intros Hrec. apply IH in Hrec as [Hle Hsame]. split; [done|].
  intros l k Hl Hk. apply Hsame; [done|]. intros ?. apply Hk. by right.
Qed.

Lemma register_other_keys E c name id error_out st :
  let r := shim_context_register_host_function E (Some c) (Some name) id
             error_out st in
  ∀ l k, l < length (st_heap st) → k ∉ split_dots name →
         Object_Get (st_heap (ret_state r)) l k = Object_Get (st_heap st) l k.
Proof.
  intros r l k Hl Hk. subst r.
  unfold shim_context_register_host_function.
  destruct (ensure_context (Some c)) as [c0|error]; [|done].
  cbv beta iota zeta. unfold ensure_property_path.
  destruct (walk_segments _ _ _) as [st1 res] eqn:Hwalk.
  pose proof Hwalk as Hany.
  apply walk_any in Hany as (_ & _ & _ & _ & _ & Hshape).
  apply walk_other_keys in Hwalk as [Hle Hsame].
  destruct res as [target key|error]; [|by apply Hsame].
  destruct (Hshape target key eq_refl) as [_ Hlast].
  assert (k ≠ key) as Hne.
  { intros ->. apply Hk. apply last_Some in Hlast as [pre ->].
    apply elem_of_app. right. by left. }
  destruct (GetFunction E (st_heap st1)) as [tc|]; [by apply Hsame|].
  unfold emit. cbn [st_heap st_trace].
  destruct (Object_Set _ _ _ _) as [h3|tc] eqn:Hset.
  - apply Object_Set_other in Hset as (_ & Hother & _).
    assert (Object_Get h3 l k = Object_Get (st_heap st) l k) as Hgoal.
    { rewrite Hother by (by right).
      rewrite Object_Get_app by lia. by apply Hsame. }
    by destruct (native_callbacks c0 !! name) as [[old|]|].
  - cbn [ret_state st_heap]. rewrite Object_Get_app by lia. by apply Hsame.
Qed.

Lemma dotted_not_segment name :
  split_dots name ≠ [name] → name ∉ split_dots name.
Proof.
  intros Hdot Hin. apply Hdot.
  pose proof (split_dots_no_dot name) as Hall.
  rewrite Forall_forall in Hall. specialize (Hall name Hin).
  pose proof (split_dots_index name) as Hsplit. by rewrite Hall in Hsplit.
Qed.

(** X19: call_function does not follow dotted paths. After
    register_host_function at a name that contains a dot, whether it
    succeeded or not, call_function with that same name still fails with
    "global function not found" and calls neither engine nor host, unless
    the global object already held an object under that literal name: the
    registration stores along the path, never under the dotted name
    itself. *)
Theorem dotted_registration_is_not_global (E : Engine) (H : Host)
    (c : ContextWrapper) (name : string) (id : N)
    (args : option (list (option string))) (arg_count : nat)
    (error_out1 result_out error_out : out_ptr) (st : State) :
  ensure_context (Some c) = inl c →
  context c < length (st_heap st) →
  split_dots name ≠ [name] →
  (∀ f, Object_Get (st_heap st) (context c) name ≠ inl (VObject f)) →
  let r1 := shim_context_register_host_function E (Some c) (Some name) id
              error_out1 st in
  let r2 := shim_context_call_function E H (ret_context r1) (Some name)
              args arg_count result_out error_out (ret_state r1) in
  ret_status r2 = 0%Z ∧
  ret_state r2 = ret_state r1 ∧
  ret_context r2 = ret_context r1 ∧
  ret_result r2 = match result_out with
                  | Some _ => Some None
                  | None => None
                  end ∧
  ret_error r2 = match error_out with
                 | Some _ => Some (Some "global function not found")
                 | None => None
                 end.
Proof.
  intros Hctx Hglobal Hdot Hnot r1 r2.
  destruct (register_effect E c name id error_out1 st)
    as (_ & _ & c' & Hc' & _ & Hiso & Hcontext & _).
  fold r1 in Hc'.
  assert (ensure_context (Some c') = inl c') as Hctx'.
  { unfold ensure_context, ctx_isolate in *. rewrite Hiso.
    destruct (isolate_wrapper c) as [w|]; [|done]. by destruct (isolate w). }
  pose proof (register_other_keys E c name id error_out1 st
                (context c) name Hglobal (dotted_not_segment _ Hdot))
    as Hsame.
  fold r1 in Hsame.
  subst r2. rewrite Hc'.
  unfold shim_context_call_function. rewrite Hctx'. cbv beta iota zeta.
  rewrite Hcontext, Hsame.
  destruct (Object_Get (st_heap st) (context c) name)
    as [[| | | | |f]|tc] eqn:Hget;
    try (by destruct result_out, error_out).
  by destruct (Hnot f).
Qed.

Lemma dotted_registration_is_not_global_witness :
  let r1 := shim_context_register_host_function toy_engine
              (Some toy_context) (Some "host.echo") 7 None toy_state in
  let r2 := shim_context_call_function toy_engine toy_host (ret_context r1)
              (Some "host.echo") None 0 (Some None) (Some None)
              (ret_state r1) in
  ret_status r1 = 1%Z ∧ ret_status r2 = 0%Z ∧
  ret_error r2 = Some (Some "global function not found") ∧
  ret_state r2 = ret_state r1.
Proof.
  intros r1 r2.
  destruct (dotted_registration_is_not_global toy_engine toy_host
              toy_context "host.echo" 7 None 0 None (Some None) (Some None)
              toy_state) as (Hs & Hstate & _ & _ & Herr).
  - reflexivity.
  - vm_compute. lia.
  - discriminate.
  - intros f Hf. vm_compute in Hf. discriminate.
  - split; [reflexivity|]. split; [exact Hs|]. split; [exact Herr|].
    exact Hstate.
Defined.

End ShimExtras.
